(** * is_browser: the setting application engine and the schema drift detector

    A shallow embedding of [scripts/apply_settings.py] and
    [scripts/stability_check.py], and the properties of the two engines.

    Layout:
    - [Py]: the Python values and string operations both scripts rely on;
    - [ApplySettings]: locator resolution, the per-type write/verify
      strategies, the container orchestration and the main loop, over an
      abstract browser (the Playwright page);
    - [StabilityCheck]: the comparison of two schema snapshots.

    Modelling conventions.
    - A Python [str] is a [string]; a character is a code point below 256.
    - A JSON scalar is a [pyval]; JSON numbers are integers.
    - A JSON object of the schema is a record; a key that may be absent or
      [null] is an [option] field ([d.get(k)] is the field).  Where the code
      tells an absent key from a [null] one, the field says so: a key
      read with [d.get(k, default)] and then used as an object or a list
      is a [slot] field, absent, [null] or given.
    - An uncaught Python exception is the [Raised] result.
    - The browser is a parameter: its queries read the live page, its
      actions step it and may raise.  The page changes through the
      engine's own actions only; launching and closing the browser, the
      files and the clock stay outside. *)

From Stdlib Require Import ZArith Ascii String DecimalString.
From stdpp Require Import base option list strings gmap sorting.

(* ===================================================================== *)
(** * Python values and strings *)
(* ===================================================================== *)

Module Py.

(** ** Characters and strings *)

Definition code (c : ascii) : N := Ascii.N_of_ascii c.

(** [str.isspace] on one character: TAB..CR, FS..US, space, NEL, NBSP. *)
Definition is_space (c : ascii) : bool :=
  let n := code c in
  ((9 <=? n) && (n <=? 13) || (28 <=? n) && (n <=? 32)
   || (n =? 133) || (n =? 160))%N.

(** [str.isdigit] on one character: 0..9 and the superscripts 1, 2, 3. *)
Definition is_digit (c : ascii) : bool :=
  let n := code c in
  ((48 <=? n) && (n <=? 57) || (n =? 178) || (n =? 179) || (n =? 185))%N.

(** [str.lower] on one character: A..Z and the Latin-1 capitals. *)
Definition lower_char (c : ascii) : ascii :=
  let n := code c in
  if ((65 <=? n) && (n <=? 90)
      || (192 <=? n) && (n <=? 222) && negb (n =? 215))%N
  then Ascii.ascii_of_N (n + 32) else c.

Fixpoint lower (s : string) : string :=
  match s with
  | EmptyString => EmptyString
  | String c r => String (lower_char c) (lower r)
  end.

Fixpoint lstrip (s : string) : string :=
  match s with
  | EmptyString => EmptyString
  | String c r => if is_space c then lstrip r else s
  end.

Fixpoint rstrip (s : string) : string :=
  match s with
  | EmptyString => EmptyString
  | String c r =>
      match rstrip r with
      | EmptyString => if is_space c then EmptyString else String c EmptyString
      | r' => String c r'
      end
  end.

(** [s.strip()] *)
Definition strip (s : string) : string := rstrip (lstrip s).

(** [needle in hay] on strings *)
Fixpoint contains (needle hay : string) : bool :=
  String.prefix needle hay
  || match hay with
     | EmptyString => false
     | String _ r => contains needle r
     end.

(** [c in s] for a character *)
Fixpoint has_char (c : ascii) (s : string) : bool :=
  match s with
  | EmptyString => false
  | String d r => Ascii.eqb c d || has_char c r
  end.

(** [any(p(ch) for ch in s)] *)
Fixpoint any_char (p : ascii -> bool) (s : string) : bool :=
  match s with
  | EmptyString => false
  | String c r => p c || any_char p r
  end.

(** [sep.join(parts)] *)
Fixpoint join (sep : string) (parts : list string) : string :=
  match parts with
  | [] => ""
  | [p] => p
  | p :: rest => p +:+ sep +:+ join sep rest
  end.

(** [x in {...}] for a set display of string literals *)
Definition str_in (x : string) (l : list string) : bool :=
  existsb (String.eqb x) l.

(** [sorted(xs)] on strings: ascending code-point order. *)
Definition sorted (l : list string) : list string := merge_sort String.le l.

(** [sorted(s)] for a set [s] of strings *)
Definition sorted_set (s : gset string) : list string := sorted (elements s).

(** ** Scalars *)

Inductive pyval : Type :=
| PNone
| PBool (b : bool)
| PInt (z : Z)
| PStr (s : string).

(** [bool(v)] *)
Definition truthy (v : pyval) : bool :=
  match v with
  | PNone => false
  | PBool b => b
  | PInt z => negb (z =? 0)%Z
  | PStr s => negb (String.eqb s "")
  end.

(** [str(v)] *)
Definition str (v : pyval) : string :=
  match v with
  | PNone => "None"
  | PBool true => "True"
  | PBool false => "False"
  | PInt z => NilZero.string_of_int (Z.to_int z)
  | PStr s => s
  end.

(** [v or ""], then [str]: the idiom [str(d.get(k) or "")] *)
Definition str_or_empty (v : pyval) : string :=
  if truthy v then str v else "".

(** [o or ""] for a field that holds a string when present *)
Definition or_empty (o : option string) : string := default "" o.

(** A string field is truthy when present and not empty. *)
Definition truthy_str (o : option string) : bool :=
  match o with
  | Some s => negb (String.eqb s "")
  | None => false
  end.

(** [a or b] on string fields *)
Definition or_else (a b : option string) : option string :=
  if truthy_str a then a else b.

(** ** Results *)

(** The two exception classes the engine tells apart. *)
Inductive exn : Type :=
| PlaywrightError (msg : string)
| OtherError (msg : string).

Inductive result (A : Type) : Type :=
| Ok (a : A)
| Raised (e : exn).
Arguments Ok {A} a.
Arguments Raised {A} e.

End Py.

Import Py.

(* ===================================================================== *)
(** * scripts/apply_settings.py *)
(* ===================================================================== *)

Module ApplySettings.

(** ** The schema, as this script reads it *)

(** A selector object: [kind] and the keys the three kinds index. *)
Record Selector : Type := {
  sel_kind : option string;
  sel_value : option string;
  sel_text : option string;
  sel_role : option string;
  sel_name : option string;
}.

(** [not selector] for a selector object: the empty object. *)
Definition selector_is_empty (s : Selector) : bool :=
  match sel_kind s, sel_value s, sel_text s, sel_role s, sel_name s with
  | None, None, None, None, None => true
  | _, _, _, _, _ => false
  end.

(** A key that holds an object or a list: the key is absent, it holds
    [null], or it holds a value.  The script reads such a key with
    [d.get(key, default)], which answers the default for an absent key
    only: a [null] comes out as Python's [None]. *)
Inductive slot (A : Type) : Type :=
| Absent
| Null
| Given (a : A).
Arguments Absent {A}.
Arguments Null {A}.
Arguments Given {A} a.

(** [d.get(key, default)]; the answer [None] is Python's [None]. *)
Definition slot_get {A} (s : slot A) (default : A) : option A :=
  match s with
  | Absent => Some default
  | Null => None
  | Given a => Some a
  end.

(** The [selectors] object of a setting. *)
Record SelectorBlock : Type := {
  primary : option Selector;
  fallbacks : slot (list Selector);
}.

(** [control.primary_selector] *)
Record PrimarySelector : Type := {
  ps_role : option string;
  ps_name : option string;
}.

Record Control : Type := {
  primary_selector : slot PrimarySelector;
  fallback_selectors : slot (list Selector);
}.

(** One entry of [options]; [PNone] is an absent or [null] key. *)
Record ChoiceOption : Type := {
  opt_value : pyval;
  opt_label : pyval;
}.

(** A setting record.  [s_selectors] is [Absent] when the key is absent or
    holds an empty object, and [Given] for an object with a key.
    [s_control] is [None] when the key is absent, [null] or an empty
    object: the script only tests it for truth.  [s_containerKey] is
    indexed by [main], so it is required.  [s_desired] is the transient
    [_desired] key: [None] when the key is absent. *)
Record Setting : Type := {
  s_field_id : option string;
  s_settingKey : option string;
  s_containerKey : string;
  s_type : option string;
  s_selectors : slot SelectorBlock;
  s_control : option Control;
  s_options : list ChoiceOption;
  s_desired : option pyval;
}.

Record NavStep : Type := {
  nav_action : option string;
  nav_url : option string;
  nav_kind : option string;
  nav_selector : option Selector;
}.

Record Action : Type := {
  act_kind : option string;
  act_selector : option Selector;
}.

Record Container : Type := {
  c_containerKey : string;
  c_type : option string;
  c_title : option string;
  c_navPath : list NavStep;
  c_actions : list Action;
}.

Record Schema : Type := {
  fieldRecords : list Setting;
  settings : list Setting;
  containers : list Container;
}.

(** ** The browser *)

(** A Playwright locator is a lazy query: a root and the steps from it.
    [Page] is the page itself, which is also a root. *)
Inductive locator : Type :=
| Page
| Css (root : locator) (value : string)
| ByLabel (root : locator) (text : string)
| ByRole (root : locator) (role name : string) (exact : bool)
| First (l : locator).

(** The calls that act on the page. *)
Inductive action : Type :=
| Goto (url : string) (timeout_ms : Z)
| Click (l : locator) (timeout_ms : Z)
| Fill (l : locator) (text : string) (timeout_ms : Z)
| Check (l : locator) (timeout_ms : Z)
| Uncheck (l : locator) (timeout_ms : Z)
| SelectValue (l : locator) (value : string) (timeout_ms : Z)
| SelectLabel (l : locator) (label : string) (timeout_ms : Z)
| Press (key : string)
| WaitVisible (l : locator) (timeout_ms : Z).

(** The capability interface of the automation layer.  Queries read the
    live page; an action steps it, and may raise after it has done so. *)
Class Browser : Type := {
  world : Type;
  b_count : world -> locator -> result nat;
  b_input_value : world -> locator -> result string;
  b_is_checked : world -> locator -> result bool;
  b_inner_text : world -> locator -> result string;
  b_perform : action -> world -> world * result unit;
}.

(** [f"{x}"] for a key that may be absent *)
Definition fmt (o : option string) : string := default "None" o.

(** [str(n)] for a list index *)
Definition str_nat (n : nat) : string := str (PInt (Z.of_nat n)).

(** [normalize_str] *)
Definition normalize_str (value : pyval) : string :=
  match value with
  | PNone => ""
  | _ => strip (str value)
  end.

(** [normalize_bool] *)
Definition normalize_bool (value : pyval) : bool :=
  match value with
  | PBool b => b
  | PStr s =>
      let lowered := lower (strip s) in
      if str_in lowered ["true"; "1"; "yes"; "on"] then true
      else if str_in lowered ["false"; "0"; "no"; "off"] then false
      else truthy value
  | _ => truthy value
  end.

(** [selector_to_locator]: a missing key is a [KeyError], an unknown kind
    a [ValueError]. *)
Definition selector_to_locator (root : locator) (selector : Selector)
  : result locator :=
  let key (k : string) (o : option string) (f : string -> result locator) :=
    match o with
    | Some v => f v
    | None => Raised (OtherError k)
    end in
  match sel_kind selector with
  | Some "css" =>
      key "'value'" (sel_value selector) (fun v => Ok (Css root v))
  | Some "label" =>
      key "'text'" (sel_text selector) (fun t => Ok (ByLabel root t))
  | Some "role" =>
      key "'role'" (sel_role selector) (fun r =>
      key "'name'" (sel_name selector) (fun n => Ok (ByRole root r n true)))
  | k => Raised (OtherError ("Unsupported selector kind: " +:+ fmt k))
  end.

(** [resolve_option_label] *)
Fixpoint resolve_option_label_in (opts : list ChoiceOption)
  (desired_text : string) : string :=
  match opts with
  | [] => desired_text
  | option :: rest =>
      if String.eqb (normalize_str (opt_value option)) desired_text then
        let l := normalize_str (opt_label option) in
        if String.eqb l "" then desired_text else l
      else if String.eqb (normalize_str (opt_label option)) desired_text then
        normalize_str (opt_label option)
      else resolve_option_label_in rest desired_text
  end.

Definition resolve_option_label (setting : Setting) (desired : pyval)
  : string :=
  resolve_option_label_in (s_options setting) (normalize_str desired).

(** What calling [.get] on [None] raises. *)
Definition none_has_no_get : exn :=
  OtherError "'NoneType' object has no attribute 'get'".

(** What [list + None] raises. *)
Definition list_plus_none : exn :=
  let q := String (ascii_of_nat 34) EmptyString in
  OtherError ("can only concatenate list (not " +:+ q +:+ "NoneType" +:+ q
              +:+ ") to list").

(** The empty object. *)
Definition empty_block : SelectorBlock :=
  {| primary := None; fallbacks := Absent |}.

(** [not selector_block] *)
Definition block_is_falsy (selectors : slot SelectorBlock) : bool :=
  match selectors with
  | Given _ => false
  | Absent | Null => true
  end.

(** The selector block [resolve_field_locator] works from, lines 60 to
    69: the [selectors] of the setting, or, when that is falsy and the
    setting has a control, a block built from the control.  The answer
    [None] is Python's [None]; reading the role of a [null]
    [primary_selector] raises. *)
Definition selector_block_of (setting : Setting)
  : result (option SelectorBlock) :=
  let selector_block := slot_get (s_selectors setting) empty_block in
  match (if block_is_falsy (s_selectors setting) then s_control setting
         else None) with
  | Some control =>
      let primary :=
        slot_get (primary_selector control)
          {| ps_role := None; ps_name := None |} in
      let fallback := slot_get (fallback_selectors control) [] in
      match primary with
      | None => Raised none_has_no_get
      | Some p =>
          Ok (Some
                {| primary :=
                     if truthy_str (ps_role p) && truthy_str (ps_name p)
                     then Some {| sel_kind := Some "role"; sel_value := None;
                                  sel_text := None; sel_role := ps_role p;
                                  sel_name := ps_name p |}
                     else None;
                   fallbacks :=
                     match fallback with
                     | Some l => Given l
                     | None => Null
                     end |})
      end
  | None => Ok selector_block
  end.

(** The candidates, line 71: [.get] on a block that is [None] raises, and
    so does adding a [fallbacks] that is [None] to a list. *)
Definition candidates_of (setting : Setting)
  : result (list (option Selector)) :=
  match selector_block_of setting with
  | Raised e => Raised e
  | Ok None => Raised none_has_no_get
  | Ok (Some selector_block) =>
      match slot_get (fallbacks selector_block) [] with
      | None => Raised list_plus_none
      | Some l => Ok ([primary selector_block] ++ (Some <$> l))
      end
  end.

(** The provenance string of candidate [index]. *)
Definition summary_of (index : nat) : string :=
  match index with
  | O => "primary"
  | S i => "fallback[" +:+ str_nat i +:+ "]"
  end.

(** [x in {...}] and [x == "..."] for a key that may be absent *)
Definition type_in (t : option string) (l : list string) : bool :=
  match t with
  | Some x => str_in x l
  | None => false
  end.

Definition type_is (t : option string) (x : string) : bool := type_in t [x].

(** [f"playwright-error:{exc}"] and [str(exc)] *)
Definition note_of (e : exn) : string :=
  match e with
  | PlaywrightError msg => "playwright-error:" +:+ msg
  | OtherError msg => msg
  end.

(** ** The engine, over a browser *)

Section Engine.
Context {B : Browser}.

(** What a run acts on: the live page, the actions performed so far, and
    the setting records of the schema, which [main] mutates in place. *)
Record session : Type := {
  live : world;
  log : list action;
  records : list Setting;
}.

Definition M (A : Type) : Type := session -> result A * session.

Definition ret {A} (a : A) : M A := fun s => (Ok a, s).

Definition bind {A C} (m : M A) (k : A -> M C) : M C :=
  fun s =>
    match m s with
    | (Ok a, s') => k a s'
    | (Raised e, s') => (Raised e, s')
    end.

(** [try: m / except Exception as e: h e] *)
Definition catch {A} (m : M A) (h : exn -> M A) : M A :=
  fun s =>
    match m s with
    | (Ok a, s') => (Ok a, s')
    | (Raised e, s') => h e s'
    end.

Definition lift {A} (r : result A) : M A := fun s => (r, s).

Definition query {A} (q : world -> locator -> result A) (l : locator) : M A :=
  fun s => (q (live s) l, s).

Definition perform (a : action) : M unit :=
  fun s =>
    let (w, r) := b_perform a (live s) in
    (r, {| live := w; log := log s ++ [a]; records := records s |}).

Definition get_records : M (list Setting) := fun s => (Ok (records s), s).

Definition set_records (rs : list Setting) : M unit :=
  fun s => (Ok tt, {| live := live s; log := log s; records := rs |}).

End Engine.

Notation "x <- m ;; k" := (bind m (fun x => k))
  (at level 100, m at next level, right associativity,
   format "'[v' x  <-  m  ;;  '/' k ']'").
Notation "m ;;; k" := (bind m (fun _ => k))
  (at level 100, right associativity).

Section Strategies.
Context {B : Browser}.

Definition count := query b_count.
Definition input_value := query b_input_value.
Definition is_checked := query b_is_checked.
Definition inner_text := query b_inner_text.

(** [resolve_field_locator]: the loop over [enumerate(candidates)]. *)
Fixpoint resolve_candidates (scope : locator) (index : nat)
  (candidates : list (option Selector)) : M (option locator * string) :=
  match candidates with
  | [] => ret (None, "none")
  | selector :: rest =>
      let continue := resolve_candidates scope (S index) rest in
      match selector with
      | None => continue
      | Some selector =>
          if selector_is_empty selector then continue
          else
            unique <- catch
              (locator <- lift (selector_to_locator scope selector) ;;
               n <- count locator ;;
               ret (if Nat.eqb n 1 then Some (First locator) else None))
              (fun _ => ret None) ;;
            match unique with
            | Some first => ret (Some first, summary_of index)
            | None => continue
            end
      end
  end.

Definition resolve_field_locator (page scope : locator) (setting : Setting)
  : M (option locator * string) :=
  candidates <- lift (candidates_of setting) ;;
  resolve_candidates scope 0 candidates.

(** [verify_locator_value] *)
Definition verify_locator_value (locator : locator) (setting : Setting)
  (desired : pyval) : M bool :=
  let control_type := s_type setting in
  let desired_text := normalize_str desired in
  catch
    (if type_in control_type ["checkbox"; "switch"] then
       b <- is_checked locator ;;
       ret (Bool.eqb b (normalize_bool desired))
     else if type_is control_type "radio_group" then ret true
     else if type_is control_type "dropdown_native" then
       current <- input_value locator ;;
       ret (String.eqb (normalize_str (PStr current)) desired_text
            || contains desired_text (normalize_str (PStr current)))
     else if type_is control_type "dropdown_aria" then
       t <- inner_text locator ;;
       let text := normalize_str (PStr t) in
       let option_label := resolve_option_label setting desired in
       ret (contains option_label text || contains desired_text text)
     else if type_in control_type ["textbox"; "spinbutton"] then
       c <- input_value locator ;;
       ret (String.eqb (normalize_str (PStr c)) desired_text)
     else ret true)
    (fun _ => ret false).

(** What [apply_setting] returns: [(ok, changed, note)]. *)
Definition verdict : Type := bool * bool * string.

(** A call inside the [try] block of [apply_setting], at a point where the
    local [changed] holds [changed]: an exception leaves through one of the
    two handlers. *)
Definition guarded {A} (changed : bool) (m : M A) (k : A -> M verdict)
  : M verdict :=
  fun s =>
    match m s with
    | (Ok a, s') => k a s'
    | (Raised e, s') => (Ok (false, changed, note_of e), s')
    end.

(** The tail of the [try] block: verification and the final return. *)
Definition verify_and_return (locator : locator) (setting : Setting)
  (desired : pyval) (selector_used : string) (changed : bool) : M verdict :=
  guarded changed (verify_locator_value locator setting desired)
    (fun verified =>
       let verified :=
         if negb verified
            && type_in (s_type setting) ["radio_group"; "dropdown_aria"]
         then true else verified in
       if negb verified then ret (false, changed, "verification-failed")
       else ret (true, changed, selector_used)).

(** [apply_setting] *)
Definition apply_setting (page scope : locator) (setting : Setting)
  (desired : pyval) (timeout_ms : Z) : M verdict :=
  r <- resolve_field_locator page scope setting ;;
  let '(found, selector_used) := r in
  match found with
  | None => ret (false, false, "no-unique-selector")
  | Some locator =>
      let setting_type := s_type setting in
      let finish := verify_and_return locator setting desired selector_used in
      if type_in setting_type ["textbox"; "spinbutton"] then
        guarded false (input_value locator) (fun cur =>
        let current := normalize_str (PStr cur) in
        let target := normalize_str desired in
        if negb (String.eqb current target) then
          guarded false (perform (Fill locator target timeout_ms))
            (fun _ => finish true)
        else finish false)
      else if type_in setting_type ["checkbox"; "switch"] then
        let desired_bool := normalize_bool desired in
        guarded false (is_checked locator) (fun current =>
        if negb (Bool.eqb current desired_bool) then
          guarded false
            (perform (if desired_bool then Check locator timeout_ms
                      else Uncheck locator timeout_ms))
            (fun _ => finish true)
        else finish false)
      else if type_is setting_type "radio_group" then
        let label := resolve_option_label setting desired in
        let radio := First (ByRole scope "radio" label true) in
        guarded false (count radio) (fun n =>
        if Nat.eqb n 0 then
          ret (false, false, "radio-option-not-found:" +:+ label)
        else
          guarded false (is_checked radio) (fun checked =>
          if negb checked then
            guarded false (perform (Click radio timeout_ms))
              (fun _ => finish true)
          else finish false))
      else if type_is setting_type "dropdown_native" then
        let desired_value := normalize_str desired in
        guarded false (input_value locator) (fun cur =>
        let current := normalize_str (PStr cur) in
        if negb (String.eqb current desired_value) then
          guarded false
            (catch (perform (SelectValue locator desired_value timeout_ms))
               (fun _ =>
                  perform (SelectLabel locator
                             (resolve_option_label setting desired)
                             timeout_ms)))
            (fun _ => finish true)
        else finish false)
      else if type_is setting_type "dropdown_aria" then
        let option_label := resolve_option_label setting desired in
        guarded false (perform (Click locator timeout_ms)) (fun _ =>
        let option := First (ByRole page "option" option_label true) in
        guarded false (count option) (fun n =>
        if Nat.eqb n 0 then
          guarded false (perform (Press "Escape")) (fun _ =>
          ret (false, false, "aria-option-not-found:" +:+ option_label))
        else
          guarded false (perform (Click option timeout_ms))
            (fun _ => finish true)))
      else if type_in setting_type ["button_dialog"; "text_display"; "table"]
      then ret (true, false, "not-writable")
      else ret (false, false, "unsupported-type:" +:+ fmt setting_type)
  end.

(** ** Containers *)

(** The first [goto] step with a url, if any. *)
Fixpoint find_goto (nav_path : list NavStep) : option string :=
  match nav_path with
  | [] => None
  | step :: rest =>
      if type_is (nav_action step) "goto" && truthy_str (nav_url step)
      then nav_url step else find_goto rest
  end.

(** [not selector] for a selector key: absent, [null] or the empty object *)
Definition usable (o : option Selector) : option Selector :=
  match o with
  | Some sel => if selector_is_empty sel then None else Some sel
  | None => None
  end.

(** The click steps of [open_container]. *)
Fixpoint click_steps (page : locator) (nav_path : list NavStep)
  (timeout_ms : Z) : M unit :=
  match nav_path with
  | [] => ret tt
  | step :: rest =>
      let continue := click_steps page rest timeout_ms in
      if negb (type_is (nav_action step) "click") then continue
      else if type_is (nav_kind step) "modal_close" then continue
      else
        match usable (nav_selector step) with
        | None => continue
        | Some selector =>
            catch
              (target <- lift (selector_to_locator page selector) ;;
               n <- count target ;;
               if Nat.eqb n 0 then ret tt
               else perform (Click (First target) timeout_ms))
              (fun _ => ret tt) ;;;
            continue
        end
  end.

(** One of the two role lookups of a modal: the surface when it shows. *)
Definition modal_by_role (page : locator) (role title : string)
  (timeout_ms : Z) : M (option locator) :=
  catch
    (let dialog := First (ByRole page role title false) in
     n <- count dialog ;;
     if Nat.ltb 0 n then
       perform (WaitVisible dialog timeout_ms) ;;;
       ret (Some dialog)
     else ret None)
    (fun _ => ret None).

Definition modal_roots : string :=
  "#detailSettingsModalRoot, .ui-dialog:visible, [role='dialog'], [role='alertdialog']".

(** [open_container]: the scope the container's settings resolve against. *)
Definition open_container (page : locator) (container : Container)
  (timeout_ms : Z) : M locator :=
  let nav_path := c_navPath container in
  match find_goto nav_path with
  | Some goto_url => perform (Goto goto_url timeout_ms)
  | None => ret tt
  end ;;;
  click_steps page nav_path timeout_ms ;;;
  if type_is (c_type container) "modal" then
    let title := or_empty (c_title container) in
    d <- modal_by_role page "dialog" title timeout_ms ;;
    match d with
    | Some dialog => ret dialog
    | None =>
        a <- modal_by_role page "alertdialog" title timeout_ms ;;
        match a with
        | Some alert => ret alert
        | None =>
            let fallback := First (Css page modal_roots) in
            n <- count fallback ;;
            if Nat.ltb 0 n then
              perform (WaitVisible fallback timeout_ms) ;;;
              ret fallback
            else ret page
        end
    end
  else ret page.

(** The target both [click_save_if_needed] and [close_modal] click: the
    scoped one, the page-level one when the scope has none; [None] when
    the target counts no element. *)
Definition action_target (page scope : locator) (selector : Selector)
  : M (option locator) :=
  scoped <- lift (selector_to_locator scope selector) ;;
  n <- count (First scoped) ;;
  target <- (if Nat.eqb n 0
             then paged <- lift (selector_to_locator page selector) ;;
                  ret (First paged)
             else ret (First scoped)) ;;
  m <- count target ;;
  if Nat.eqb m 0 then ret None else ret (Some target).

(** The loop of [click_save_if_needed] over the container's actions. *)
Fixpoint click_save (page scope : locator) (actions : list Action)
  (timeout_ms : Z) : M bool :=
  match actions with
  | [] => ret false
  | action :: rest =>
      let continue := click_save page scope rest timeout_ms in
      if negb (type_is (act_kind action) "save") then continue
      else
        match usable (act_selector action) with
        | None => continue
        | Some selector =>
            clicked <- catch
              (target <- action_target page scope selector ;;
               match target with
               | None => ret false
               | Some target =>
                   perform (Click target timeout_ms) ;;; ret true
               end)
              (fun _ => ret false) ;;
            if clicked then ret true else continue
        end
  end.

(** [click_save_if_needed] *)
Definition click_save_if_needed (page scope : locator)
  (container : Container) (changed : bool) (timeout_ms : Z) : M bool :=
  if negb changed then ret false
  else click_save page scope (c_actions container) timeout_ms.

(** The loop of [close_modal] over the cancel and close actions. *)
Fixpoint click_close (page scope : locator) (close_actions : list Action)
  (timeout_ms : Z) : M bool :=
  match close_actions with
  | [] => ret false
  | action :: rest =>
      let continue := click_close page scope rest timeout_ms in
      match usable (act_selector action) with
      | None => continue
      | Some selector =>
          clicked <- catch
            (target <- action_target page scope selector ;;
             match target with
             | None => ret false
             | Some target =>
                 perform (Click target timeout_ms) ;;; ret true
             end)
            (fun _ => ret false) ;;
          if clicked then ret true else continue
      end
  end.

(** [close_modal] *)
Definition close_modal (page scope : locator) (container : Container)
  (timeout_ms : Z) : M unit :=
  if negb (type_is (c_type container) "modal") then ret tt
  else
    let close_actions :=
      filter (fun a => type_in (act_kind a) ["cancel"; "close"] = true)
        (c_actions container) in
    closed <- click_close page scope close_actions timeout_ms ;;
    if closed then ret tt
    else catch (perform (Press "Escape")) (fun _ => ret tt).

(** ** The main loop *)

(** One entry of the report's [outcomes]; an outer [option] says whether
    the key is in the object. *)
Record Outcome : Type := {
  o_settingKey : option string;
  o_containerKey : string;
  o_type : option (option string);
  o_desired : option pyval;
  o_status : string;
  o_detail : option string;
  o_reason : option string;
}.

Record Counts : Type := {
  total : nat;
  applied : nat;
  skipped : nat;
  failed : nat;
  savedContainersCount : nat;
}.

Record Report : Type := {
  counts : Counts;
  savedContainers : list string;
  outcomes : list Outcome;
  exit_code : Z;
}.

(** [schema.get("fieldRecords") or schema.get("settings", [])] *)
Definition records_of (schema : Schema) : list Setting :=
  match fieldRecords schema with
  | [] => settings schema
  | rs => rs
  end.

(** [item.get("field_id") or item.get("settingKey")] *)
Definition key_of (item : Setting) : option string :=
  or_else (s_field_id item) (s_settingKey item).

(** [settings_by_key]: a later record with the same key replaces an
    earlier one.  A record is named by its position in [records]. *)
Fixpoint index_settings (i : nat) (items : list Setting)
  (acc : gmap string nat) : gmap string nat :=
  match items with
  | [] => acc
  | item :: rest =>
      index_settings (S i) rest
        (match key_of item with
         | Some k => if truthy_str (Some k) then <[k := i]> acc else acc
         | None => acc
         end)
  end.

Definition settings_by_key (items : list Setting) : gmap string nat :=
  index_settings 0 items ∅.

(** [containers_by_key] *)
Definition containers_by_key (cs : list Container) : gmap string Container :=
  fold_left (fun acc item => <[c_containerKey item := item]> acc) cs ∅.

(** [settings_by_container[k].append(i)] on a [defaultdict(list)], which
    keeps its keys in the order of their first use. *)
Fixpoint group_append (k : string) (i : nat) (groups : list (string * list nat))
  : list (string * list nat) :=
  match groups with
  | [] => [(k, [i])]
  | (k', l) :: rest =>
      if String.eqb k' k then (k', l ++ [i]) :: rest
      else (k', l) :: group_append k i rest
  end.

Definition with_desired (d : option pyval) (s : Setting) : Setting :=
  {| s_field_id := s_field_id s; s_settingKey := s_settingKey s;
     s_containerKey := s_containerKey s; s_type := s_type s;
     s_selectors := s_selectors s; s_control := s_control s;
     s_options := s_options s; s_desired := d |}.

(** The grouping loop over [values.items()]: it writes [_desired] into
    each matched record. *)
Fixpoint group_values (values : list (string * pyval))
  (by_key : gmap string nat) (store : list Setting)
  (groups : list (string * list nat))
  : list Setting * list (string * list nat) :=
  match values with
  | [] => (store, groups)
  | (key, desired) :: rest =>
      match by_key !! key with
      | None => group_values rest by_key store groups
      | Some i =>
          match store !! i with
          | None => group_values rest by_key store groups
          | Some setting =>
              group_values rest by_key
                (<[i := with_desired (Some desired) setting]> store)
                (group_append (s_containerKey setting) i groups)
          end
      end
  end.

(** The outcome of a setting whose container is missing. *)
Definition missing_outcome (container_key : string) (setting : Setting)
  : Outcome :=
  {| o_settingKey := s_settingKey setting; o_containerKey := container_key;
     o_type := None; o_desired := None; o_status := "failed";
     o_detail := None; o_reason := Some "missing-container" |}.

Definition status_of (ok changed : bool) : string :=
  if ok then (if changed then "applied" else "skipped") else "failed".

(** The outcome of a setting that went through [apply_setting]. *)
Definition applied_outcome (container_key : string) (setting : Setting)
  (desired : pyval) (v : verdict) : Outcome :=
  let '(ok, changed, note) := v in
  {| o_settingKey := s_settingKey setting; o_containerKey := container_key;
     o_type := Some (s_type setting); o_desired := Some desired;
     o_status := status_of ok changed; o_detail := Some note;
     o_reason := None |}.

(** The loop over the settings of an open container. *)
Fixpoint apply_all (page scope : locator) (container_key : string)
  (container_settings : list nat) (timeout_ms : Z)
  (outs : list Outcome) (changed_count : nat) : M (list Outcome * nat) :=
  match container_settings with
  | [] => ret (outs, changed_count)
  | i :: rest =>
      rs <- get_records ;;
      match rs !! i with
      | None => apply_all page scope container_key rest timeout_ms
                  outs changed_count
      | Some stored =>
          match s_desired stored with
          | None => lift (Raised (OtherError "'_desired'"))
          | Some desired =>
              let setting := with_desired None stored in
              set_records (<[i := setting]> rs) ;;;
              v <- apply_setting page scope setting desired timeout_ms ;;
              let '(ok, changed, _) := v in
              apply_all page scope container_key rest timeout_ms
                (outs ++ [applied_outcome container_key setting desired v])
                (if ok && changed then S changed_count else changed_count)
          end
      end
  end.

(** The outcomes of a group whose container is missing. *)
Definition missing_outcomes (rs : list Setting) (container_key : string)
  (container_settings : list nat) : list Outcome :=
  omap (fun i => missing_outcome container_key <$> rs !! i)
    container_settings.

(** The body of the loop over [settings_by_container.items()]. *)
Definition process_group (page : locator) (by_key : gmap string Container)
  (timeout_ms : Z) (group : string * list nat)
  (acc : list Outcome * list string) : M (list Outcome * list string) :=
  let '(container_key, container_settings) := group in
  let '(outs, saved_containers) := acc in
  match by_key !! container_key with
  | None =>
      rs <- get_records ;;
      ret (outs ++ missing_outcomes rs container_key container_settings,
           saved_containers)
  | Some container =>
      scope <- open_container page container timeout_ms ;;
      r <- apply_all page scope container_key container_settings timeout_ms
             outs 0 ;;
      let '(outs, changed_count) := r in
      saved <- click_save_if_needed page scope container
                 (Nat.ltb 0 changed_count) timeout_ms ;;
      close_modal page scope container timeout_ms ;;;
      ret (outs,
           if saved then saved_containers ++ [container_key]
           else saved_containers)
  end.

Fixpoint main_loop (page : locator) (by_key : gmap string Container)
  (timeout_ms : Z) (groups : list (string * list nat))
  (acc : list Outcome * list string) : M (list Outcome * list string) :=
  match groups with
  | [] => ret acc
  | group :: rest =>
      acc' <- process_group page by_key timeout_ms group acc ;;
      main_loop page by_key timeout_ms rest acc'
  end.

Definition count_status (status : string) (outs : list Outcome) : nat :=
  length (filter (fun o => o_status o = status) outs).

Definition report_of (outs : list Outcome) (saved_containers : list string)
  : Report :=
  {| counts := {| total := length outs;
                  applied := count_status "applied" outs;
                  skipped := count_status "skipped" outs;
                  failed := count_status "failed" outs;
                  savedContainersCount := length saved_containers |};
     savedContainers := saved_containers;
     outcomes := outs;
     exit_code := if Nat.eqb (count_status "failed" outs) 0 then 0 else 1 |}.

(** [main], from the parsed schema and values to the report.  The values
    are the items of a dictionary, in its order. *)
Definition main (schema : Schema) (values : list (string * pyval))
  (timeout_ms : Z) : M Report :=
  rs <- get_records ;;
  let by_key := settings_by_key rs in
  let by_container := containers_by_key (containers schema) in
  let '(store, groups) := group_values values by_key rs [] in
  set_records store ;;;
  r <- main_loop Page by_container timeout_ms groups ([], []) ;;
  let '(outs, saved_containers) := r in
  ret (report_of outs saved_containers).

(** A run of [main] on a page in state [w]. *)
Definition run (w : world) (schema : Schema) (values : list (string * pyval))
  (timeout_ms : Z) : result Report * session :=
  main schema values timeout_ms
    {| live := w; log := []; records := records_of schema |}.

(** ** What a candidate resolves to *)

(** The locator of a candidate and the number of elements it matches on
    page [w]; [None] when the candidate is skipped or the lookup raises. *)
Definition candidate_count (w : world) (scope : locator)
  (candidate : option Selector) : option (locator * nat) :=
  match usable candidate with
  | None => None
  | Some selector =>
      match selector_to_locator scope selector with
      | Ok l =>
          match b_count w l with
          | Ok n => Some (l, n)
          | Raised _ => None
          end
      | Raised _ => None
      end
  end.

(** The candidate does not match exactly one element. *)
Definition passed_over (w : world) (scope : locator)
  (candidate : option Selector) : Prop :=
  snd <$> candidate_count w scope candidate ≠ Some 1.

(** ** Notions the properties are stated with *)

(** The grouped settings in the order the main loop takes them: the
    container key of the group and the position of the record. *)
Definition flat_groups (groups : list (string * list nat))
  : list (string * nat) :=
  flat_map (fun g => pair g.1 <$> g.2) groups.

(** The groups [main] builds from the schema's records and the values. *)
Definition groups_of (schema : Schema) (values : list (string * pyval))
  : list (string * list nat) :=
  (group_values values (settings_by_key (records_of schema))
     (records_of schema) []).2.

(** The [_desired] key of record [i]: [None] when there is no such
    record, [Some None] when it has no such key. *)
Definition desired_at (rs : list Setting) (i : nat) : option (option pyval) :=
  s_desired <$> rs !! i.

(** A computation whose final session is always related to the initial
    one by [F], whether it returns or raises. *)
Definition frames {A} (F : relation session) (m : M A) : Prop :=
  forall s, F s (m s).2.

(** Popping [_desired] from record [i] relates the sessions by [F]. *)
Definition pops (F : relation session) (i : nat) : Prop :=
  forall s stored,
    records s !! i = Some stored ->
    F s {| live := live s; log := log s;
           records := <[i := with_desired None stored]> (records s) |}.

(** Two record lists that differ in their [_desired] keys at most. *)
Definition same_settings (rs rs' : list Setting) : Prop :=
  with_desired None <$> rs = with_desired None <$> rs'.

(** The three ways the records of two sessions are compared. *)
Definition same_records : relation session :=
  fun s s' => same_settings (records s) (records s').

Definition keeps_record (i : nat) : relation session :=
  fun s s' => records s' !! i = records s !! i.

Definition stays_popped (i : nat) : relation session :=
  fun s s' =>
    desired_at (records s) i = Some None ->
    desired_at (records s') i = Some None.

(** Outcome [o] is the one of the record at [i], grouped under [k]; when
    the container of [k] is missing it is the missing-container outcome. *)
Definition outcome_for (rs : list Setting) (by_key : gmap string Container)
  (g : string * nat) (o : Outcome) : Prop :=
  exists setting,
    rs !! g.2 = Some setting
    /\ o_settingKey o = s_settingKey setting
    /\ o_containerKey o = g.1
    /\ (by_key !! g.1 = None -> o = missing_outcome g.1 setting).

End Strategies.

End ApplySettings.

(* ===================================================================== *)
(** * scripts/stability_check.py *)
(* ===================================================================== *)

Module StabilityCheck.

(** ** The schema, as this script reads it *)

Record PrimarySelector : Type := { ps_name : option string }.

Record Control : Type := {
  primary_selector : option PrimarySelector;
  canonical_control_id : option string;
}.

Record Titled : Type := { title : option string }.

Record Context : Type := {
  frame_url : option string;
  modal_title : option string;
}.

Record ChoiceOption : Type := {
  opt_label : pyval;
  opt_value : pyval;
}.

(** A setting record.  [label] and [field_id] are [None] when the key is
    absent and [Some None] when it holds [null]: the code asks whether the
    key is there.  [value] is [Some v] when the key holds an object, [v]
    being its [current_value]. *)
Record Setting : Type := {
  label : option (option string);
  control : option Control;
  type_ : option string;
  field_id : option (option string);
  settingKey : option string;
  page : option string;
  breadcrumb : list string;
  container : option Titled;
  group : option Titled;
  context : option Context;
  containerKey : option string;
  groupTitle : option string;
  value : option pyval;
  currentValue : pyval;
  options : list ChoiceOption;
}.

Record Container : Type := { c_containerKey : string }.

Record Schema : Type := {
  containers : list Container;
  fieldRecords : list Setting;
  settings : list Setting;
}.

(** ** The diff *)

Record LabelType : Type := { lt_label : string; lt_type : string }.

Record Changed : Type := {
  ch_settingKey : string;
  ch_first : LabelType;
  ch_second : LabelType;
}.

Record Drift : Type := {
  dr_signature : string;
  firstFieldId : string;
  secondFieldId : string;
}.

Record MissingOptions : Type := {
  mo_fieldId : string;
  mo_label : string;
  mo_reason : string;
}.

Record Reordered : Type := {
  ro_signature : string;
  firstOrder : list string;
  secondOrder : list string;
}.

Record Diff : Type := {
  containers_added : list string;
  containers_removed : list string;
  settings_added : list string;
  settings_removed : list string;
  labelOrTypeChanged : list Changed;
  fieldIdDrift : list Drift;
  dropdownsMissingOptionsA : list MissingOptions;
  dropdownsMissingOptionsB : list MissingOptions;
  radioOrderingChangedWithoutLabelChange : list Reordered;
}.

(** ** The functions *)

(** [schema_settings] *)
Definition schema_settings (schema : Schema) : list Setting :=
  match fieldRecords schema with
  | [] => settings schema
  | rs => rs
  end.

(** [d.get(k)] through an object that may be absent: [(x or {}).get(k)] *)
Definition through {A C} (o : option A) (f : A -> option C) : option C :=
  match o with
  | Some a => f a
  | None => None
  end.

(** [setting_label] *)
Definition setting_label (setting : Setting) : string :=
  match label setting with
  | Some l => or_empty l
  | None =>
      let primary := through (control setting) primary_selector in
      or_empty (through primary ps_name)
  end.

(** [setting_type] *)
Definition setting_type (setting : Setting) : string :=
  or_empty (type_ setting).

(** [setting_id] *)
Definition setting_id (setting : Setting) : string :=
  or_empty (or_else (through (field_id setting) id) (settingKey setting)).

(** [setting_signature] *)
Definition setting_signature (setting : Setting) : string :=
  match field_id setting with
  | Some _ =>
      join "|"
        [ or_empty (page setting);
          join "|" (breadcrumb setting);
          or_empty (through (container setting) title);
          or_empty (through (group setting) title);
          or_empty (through (control setting) canonical_control_id);
          or_empty (through (context setting) frame_url);
          or_empty (through (context setting) modal_title);
          setting_type setting ]
  | None =>
      join "|"
        [ or_empty (containerKey setting);
          or_empty (groupTitle setting);
          setting_label setting;
          setting_type setting ]
  end.

(** The current value [is_timestamp_field] looks at: [current_value] of
    the [value] object when there is one, else [currentValue]. *)
Definition current_value (setting : Setting) : pyval :=
  match value setting with
  | Some current_value => current_value
  | None => currentValue setting
  end.

(** [is_timestamp_field] *)
Definition is_timestamp_field (setting : Setting) : bool :=
  let label := lower (setting_label setting) in
  if contains "time" label || contains "date" label then true
  else
    let value := str_or_empty (current_value setting) in
    negb (String.eqb value "")
    && (existsb (fun ch => has_char ch value) ["/"%char; ":"%char]
        && any_char is_digit value).

(** [dropdown_missing_options] *)
Definition dropdown_missing_options (items : list Setting)
  : list MissingOptions :=
  flat_map
    (fun item =>
       if negb (str_in (setting_type item) ["dropdown_native"; "dropdown_aria"])
       then []
       else if Nat.eqb (length (options item)) 0
       then [ {| mo_fieldId := setting_id item;
                 mo_label := setting_label item;
                 mo_reason := "dropdown has empty options[]" |} ]
       else [])
    items.

(** The label of one radio option:
    [str(option.get("label") or option.get("value") or "")] *)
Definition option_text (option : ChoiceOption) : string :=
  if truthy (opt_label option) then str (opt_label option)
  else str_or_empty (opt_value option).

(** A dictionary comprehension [{key(x): val(x) for x in items if keep(x)}]:
    a later item replaces an earlier one with the same key. *)
Definition dict_step {A V} (keep : A -> bool) (key : A -> string)
  (val : A -> V) (acc : gmap string V) (item : A) : gmap string V :=
  if keep item then <[key item := val item]> acc else acc.

Definition dict_of {A V} (keep : A -> bool) (key : A -> string)
  (val : A -> V) (items : list A) : gmap string V :=
  fold_left (dict_step keep key val) items ∅.

(** [radio_order_index] *)
Definition radio_order_index (items : list Setting)
  : gmap string (list string) :=
  dict_of (fun item => String.eqb (setting_type item) "radio_group")
    setting_signature (fun item => option_text <$> options item) items.

Definition has_id (item : Setting) : bool :=
  negb (String.eqb (setting_id item) "").

(** The settings of a snapshot by identifier. *)
Definition settings_by_id (items : list Setting) : gmap string Setting :=
  dict_of has_id setting_id id items.

(** The signature map of a snapshot. *)
Definition signature_map (items : list Setting) : gmap string string :=
  dict_of (fun item => has_id item && negb (is_timestamp_field item))
    setting_signature setting_id items.

Definition container_keys (cs : list Container) : gset string :=
  dom (dict_of (fun _ => true) c_containerKey id cs).

(** The loop that fills [changed_labels_or_types]. *)
Definition changed_labels_or_types (first_settings second_settings
  : gmap string Setting) : list Changed :=
  flat_map
    (fun key =>
       match first_settings !! key, second_settings !! key with
       | Some first_item, Some second_item =>
           let first_label := setting_label first_item in
           let second_label := setting_label second_item in
           let first_type := setting_type first_item in
           let second_type := setting_type second_item in
           if negb (String.eqb first_label second_label)
              || negb (String.eqb first_type second_type)
           then [ {| ch_settingKey := key;
                     ch_first := {| lt_label := first_label;
                                    lt_type := first_type |};
                     ch_second := {| lt_label := second_label;
                                     lt_type := second_type |} |} ]
           else []
       | _, _ => []
       end)
    (sorted_set (dom first_settings ∩ dom second_settings)).

(** The loop that fills [field_id_drift]. *)
Definition field_id_drift (first_signature_map second_signature_map
  : gmap string string) : list Drift :=
  flat_map
    (fun signature =>
       match first_signature_map !! signature,
             second_signature_map !! signature with
       | Some a, Some b =>
           if negb (String.eqb a b)
           then [ {| dr_signature := signature; firstFieldId := a;
                     secondFieldId := b |} ]
           else []
       | _, _ => []
       end)
    (sorted_set (dom first_signature_map ∩ dom second_signature_map)).

(** The loop that fills [radio_ordering_changed]. *)
Definition radio_ordering_changed (first_radio second_radio
  : gmap string (list string)) : list Reordered :=
  flat_map
    (fun signature =>
       match first_radio !! signature, second_radio !! signature with
       | Some first_labels, Some second_labels =>
           if bool_decide (first_labels = second_labels) then []
           else if bool_decide (sorted first_labels = sorted second_labels)
           then [ {| ro_signature := signature; firstOrder := first_labels;
                     secondOrder := second_labels |} ]
           else []
       | _, _ => []
       end)
    (sorted_set (dom first_radio ∩ dom second_radio)).

(** [compare_schemas] *)
Definition compare_schemas (first second : Schema) : Diff :=
  let first_container_keys := container_keys (containers first) in
  let second_container_keys := container_keys (containers second) in
  let first_settings_list := schema_settings first in
  let second_settings_list := schema_settings second in
  let first_settings := settings_by_id first_settings_list in
  let second_settings := settings_by_id second_settings_list in
  let first_setting_keys := dom first_settings in
  let second_setting_keys := dom second_settings in
  {| containers_added :=
       sorted_set (second_container_keys ∖ first_container_keys);
     containers_removed :=
       sorted_set (first_container_keys ∖ second_container_keys);
     settings_added := sorted_set (second_setting_keys ∖ first_setting_keys);
     settings_removed := sorted_set (first_setting_keys ∖ second_setting_keys);
     labelOrTypeChanged :=
       changed_labels_or_types first_settings second_settings;
     fieldIdDrift :=
       field_id_drift (signature_map first_settings_list)
         (signature_map second_settings_list);
     dropdownsMissingOptionsA := dropdown_missing_options first_settings_list;
     dropdownsMissingOptionsB := dropdown_missing_options second_settings_list;
     radioOrderingChangedWithoutLabelChange :=
       radio_ordering_changed (radio_order_index first_settings_list)
         (radio_order_index second_settings_list) |}.

(** [bool(xs)] for a list *)
Definition nonempty {A} (l : list A) : bool :=
  match l with
  | [] => false
  | _ => true
  end.

(** [has_drift] *)
Definition has_drift (diff : Diff) : bool :=
  existsb id
    [ nonempty (containers_added diff);
      nonempty (containers_removed diff);
      nonempty (settings_added diff);
      nonempty (settings_removed diff);
      nonempty (labelOrTypeChanged diff);
      nonempty (fieldIdDrift diff);
      nonempty (dropdownsMissingOptionsA diff);
      nonempty (dropdownsMissingOptionsB diff);
      nonempty (radioOrderingChangedWithoutLabelChange diff) ].

End StabilityCheck.

(* ===================================================================== *)
(** * A concrete page for the examples *)
(* ===================================================================== *)

Module Demo.
Import ApplySettings.

(** A small page for the examples: fields found by their CSS selector.
    A field that reverts takes an edit without error and shows its old
    value again (a page script restores it). *)
Record element : Type := {
  e_css : string;
  e_value : string;
  e_checked : bool;
  e_reverts : bool;
}.

(** The positions of the elements a locator matches. *)
Fixpoint select (w : list element) (l : locator) : list nat :=
  match l with
  | Css _ v =>
      omap (fun p : nat * element =>
              if String.eqb (e_css p.2) v then Some p.1 else None)
        (imap pair w)
  | First l => take 1 (select w l)
  | _ => []
  end.

(** A strict read of one element. *)
Definition the_element {A} (w : list element) (l : locator)
  (f : element -> A) : result A :=
  match select w l with
  | [i] =>
      match w !! i with
      | Some e => Ok (f e)
      | None => Raised (PlaywrightError "detached")
      end
  | [] => Raised (PlaywrightError "Timeout exceeded")
  | _ => Raised (PlaywrightError "strict mode violation")
  end.

Definition edit (w : list element) (l : locator) (f : element -> element)
  : list element * result unit :=
  match select w l with
  | [i] =>
      match w !! i with
      | Some e => (if e_reverts e then w else <[i := f e]> w, Ok tt)
      | None => (w, Raised (PlaywrightError "detached"))
      end
  | [] => (w, Raised (PlaywrightError "Timeout exceeded"))
  | _ => (w, Raised (PlaywrightError "strict mode violation"))
  end.

Definition set_value (v : string) (e : element) : element :=
  {| e_css := e_css e; e_value := v; e_checked := e_checked e;
     e_reverts := e_reverts e |}.

Definition set_checked (b : bool) (e : element) : element :=
  {| e_css := e_css e; e_value := e_value e; e_checked := b;
     e_reverts := e_reverts e |}.

Definition demo_perform (a : action) (w : list element)
  : list element * result unit :=
  match a with
  | Fill l text _ => edit w l (set_value text)
  | SelectValue l v _ => edit w l (set_value v)
  | SelectLabel l v _ => edit w l (set_value v)
  | Check l _ => edit w l (set_checked true)
  | Uncheck l _ => edit w l (set_checked false)
  | Click l _ => edit w l id
  | Goto _ _ | Press _ | WaitVisible _ _ => (w, Ok tt)
  end.

Definition demo_browser : Browser := {|
  world := list element;
  b_count := fun w l => Ok (length (select w l));
  b_input_value := fun w l => the_element w l e_value;
  b_is_checked := fun w l => the_element w l e_checked;
  b_inner_text := fun w l => the_element w l e_value;
  b_perform := demo_perform;
|}.

Definition css (v : string) : Selector :=
  {| sel_kind := Some "css"; sel_value := Some v; sel_text := None;
     sel_role := None; sel_name := None |}.

Definition field (key container_key type : string) (block : SelectorBlock)
  : Setting :=
  {| s_field_id := None; s_settingKey := Some key;
     s_containerKey := container_key; s_type := Some type;
     s_selectors := Given block; s_control := None; s_options := [];
     s_desired := None |}.

Definition page_container (key : string) (actions : list Action) : Container :=
  {| c_containerKey := key; c_type := Some "page"; c_title := None;
     c_navPath := []; c_actions := actions |}.

Definition save_button : Action :=
  {| act_kind := Some "save"; act_selector := Some (css "#save") |}.

Definition demo_page : list element :=
  [ {| e_css := ".row"; e_value := "a"; e_checked := false;
       e_reverts := false |};
    {| e_css := ".row"; e_value := "b"; e_checked := false;
       e_reverts := false |};
    {| e_css := "#name"; e_value := "old"; e_checked := false;
       e_reverts := false |};
    {| e_css := "#locked"; e_value := "old"; e_checked := false;
       e_reverts := true |};
    {| e_css := "#grid"; e_value := ""; e_checked := false;
       e_reverts := false |};
    {| e_css := "#save"; e_value := ""; e_checked := false;
       e_reverts := false |} ].

Definition demo_schema (items : list Setting) : Schema :=
  {| fieldRecords := []; settings := items;
     containers := [page_container "c1" [save_button]] |}.

Definition one (v : string) : SelectorBlock :=
  {| primary := Some (css v); fallbacks := Given [] |}.

(** The sessions and settings of the examples. *)
Definition locked : Setting := field "s1" "c1" "textbox" (one "#locked").

Definition start (rs : list Setting) : session (B := demo_browser) :=
  @Build_session demo_browser demo_page [] rs.

(** The session a write to the reverting field leaves. *)
Definition after_fill_locked : session (B := demo_browser) :=
  @Build_session demo_browser demo_page
    [Fill (First (Css Page "#locked")) "x" 15000] [locked].

Definition mixed_values : list (string * pyval) :=
  [("s1", PStr "x"); ("ghost", PInt 3); ("s2", PStr "old")].

Definition two_rows_then_name : Setting :=
  field "s2" "c1" "textbox"
    {| primary := Some (css ".row"); fallbacks := Given [css "#name"] |}.

Definition grid : Setting := field "s1" "c1" "table" (one "#grid").

Definition name : Setting := field "s1" "c1" "textbox" (one "#name").

Definition orphan : Setting := field "s1" "c2" "textbox" (one "#locked").

Definition asked (d : pyval) (s : Setting) : Setting :=
  with_desired (Some d) s.

End Demo.

Module DemoSchemas.
Import StabilityCheck.

(** A legacy setting record with a key, a label, a type and options. *)
Definition legacy (key lbl type : string) (cur : pyval)
  (opts : list ChoiceOption) : Setting :=
  {| label := Some (Some lbl); control := None; type_ := Some type;
     field_id := None; settingKey := Some key; page := None;
     breadcrumb := []; container := None; group := None; context := None;
     containerKey := Some "c1"; groupTitle := None; value := None;
     currentValue := cur; options := opts |}.

(** A field record: its signature leaves the label and the id out. *)
Definition rich (id lbl type control_id : string) (cur : pyval) : Setting :=
  {| label := Some (Some lbl);
     control := Some {| primary_selector := None;
                        canonical_control_id := Some control_id |};
     type_ := Some type; field_id := Some (Some id); settingKey := None;
     page := Some "p"; breadcrumb := ["Home"; "Network"]; container := None;
     group := None; context := None; containerKey := None;
     groupTitle := None; value := Some cur; currentValue := PNone;
     options := [] |}.

Definition snapshot (items : list Setting) : Schema :=
  {| containers := [ {| c_containerKey := "c1" |} ]; fieldRecords := [];
     settings := items |}.

Definition choice (l : string) : ChoiceOption :=
  {| opt_label := PStr l; opt_value := PNone |}.

Definition empty_dropdown : Setting :=
  legacy "mode" "Mode" "dropdown_native" PNone [].

Definition stamp : pyval := PStr "2024/01/01 10:00".

Definition updated (id type : string) : Setting :=
  rich id "Last Updated" type "ctl-7" stamp.

Definition radio (opts : list string) : Setting :=
  legacy "r1" "Speed" "radio_group" PNone (choice <$> opts).

End DemoSchemas.

(* ===================================================================== *)
(** * More of scripts/apply_settings.py *)
(* ===================================================================== *)

Module LoadValues.

(** What [json.load] returns; an object is its items, with distinct keys.
    Numbers are integers. *)
#[warnings="-register-all"]
Inductive json : Type :=
| JNull
| JBool (b : bool)
| JInt (z : Z)
| JStr (s : string)
| JList (l : list json)
| JObj (items : list (string * json)).

(** The two exceptions [load_values] can leave with. *)
Inductive load_error : Type :=
| TypeError
| ValueError (msg : string).

(** [d.get(k)] on the items of an object *)
Fixpoint get (k : string) (items : list (string * json)) : option json :=
  match items with
  | [] => None
  | (k', v) :: rest => if String.eqb k' k then Some v else get k rest
  end.

(** [x == "values"] for an element of a list *)
Definition is_values (x : json) : bool :=
  match x with
  | JStr s => String.eqb s "values"
  | _ => false
  end.

(** [load_values], from the parsed payload: [raw["values"]] when that is
    an object, [raw] itself when it is one.  On a string or a list the
    test ["values" in raw] is a substring or membership test, and indexing
    by ["values"] then raises; on a scalar the test itself raises. *)
Definition load_values (path : string) (raw : json)
  : list (string * json) + load_error :=
  let unsupported := inr (ValueError ("Unsupported values payload: " +:+ path)) in
  match raw with
  | JObj items =>
      match get "values" items with
      | Some (JObj values) => inl values
      | _ => inl items
      end
  | JStr s => if contains "values" s then inr TypeError else unsupported
  | JList l => if existsb is_values l then inr TypeError else unsupported
  | JNull | JBool _ | JInt _ => inr TypeError
  end.

End LoadValues.

Module ApplyNotions.
Import ApplySettings.

Section WithBrowser.
Context {B : Browser}.


(** The page already shows the desired value of the setting, as its
    strategy reads it before it writes. *)
Definition already_set (w : world) (scope locator : locator)
  (setting : Setting) (desired : pyval) : Prop :=
  (type_in (s_type setting) ["textbox"; "spinbutton"] = true
   /\ exists cur, b_input_value w locator = Ok cur
                  /\ normalize_str (PStr cur) = normalize_str desired)
  \/ (type_in (s_type setting) ["checkbox"; "switch"] = true
      /\ b_is_checked w locator = Ok (normalize_bool desired))
  \/ (type_is (s_type setting) "radio_group" = true
      /\ let radio := First (ByRole scope "radio"
                               (resolve_option_label setting desired) true) in
         b_is_checked w radio = Ok true
         /\ exists n, b_count w radio = Ok (S n))
  \/ (type_is (s_type setting) "dropdown_native" = true
      /\ exists cur, b_input_value w locator = Ok cur
                     /\ normalize_str (PStr cur) = normalize_str desired).


End WithBrowser.

Definition is_null {A} (s : slot A) : bool :=
  match s with
  | Null => true
  | Absent | Given _ => false
  end.

(** The record holds [null] where the resolution reads an object or a
    list: under the [fallbacks] of its selectors; or, when the selectors
    are absent, empty or [null], under the [primary_selector] or the
    [fallback_selectors] of its control, or, without a control, under
    [selectors] itself. *)
Definition has_null_selectors (setting : Setting) : bool :=
  match s_selectors setting with
  | Given block => is_null (fallbacks block)
  | selectors =>
      match s_control setting with
      | Some control =>
          is_null (primary_selector control)
          || is_null (fallback_selectors control)
      | None => is_null selectors
      end
  end.

(** An option at which the loop of [resolve_option_label] stops: its
    normalized value or its normalized label is the text looked for. *)
Definition hits (wanted : string) (o : ChoiceOption) : Prop :=
  normalize_str (opt_value o) = wanted \/ normalize_str (opt_label o) = wanted.

(** The ten types [apply_setting] has a branch for. *)
Definition known_types : list string :=
  ["textbox"; "spinbutton"; "checkbox"; "switch"; "radio_group";
   "dropdown_native"; "dropdown_aria"; "button_dialog"; "text_display";
   "table"].

(** A string that does not begin with whitespace. *)
Definition starts_clean (t : string) : Prop :=
  match t with
  | EmptyString => True
  | String c _ => is_space c = false
  end.




Definition known_status (o : Outcome) : Prop :=
  o_status o = "applied" \/ o_status o = "skipped" \/ o_status o = "failed".

(** The desired value names a setting of the schema. *)
Definition matched (by_key : gmap string nat) (kv : string * pyval) : Prop :=
  is_Some (by_key !! kv.1).

End ApplyNotions.

(* ===================================================================== *)
(** * More notions for scripts/stability_check.py *)
(* ===================================================================== *)

Module StabilityNotions.
Import StabilityCheck.

(** The entries of a diff with the two snapshots exchanged. *)
Definition mirror_changed (c : Changed) : Changed :=
  {| ch_settingKey := ch_settingKey c; ch_first := ch_second c;
     ch_second := ch_first c |}.

Definition mirror_drift (d : Drift) : Drift :=
  {| dr_signature := dr_signature d; firstFieldId := secondFieldId d;
     secondFieldId := firstFieldId d |}.

Definition mirror_reordered (r : Reordered) : Reordered :=
  {| ro_signature := ro_signature r; firstOrder := secondOrder r;
     secondOrder := firstOrder r |}.

Definition mirror (d : Diff) : Diff :=
  {| containers_added := containers_removed d;
     containers_removed := containers_added d;
     settings_added := settings_removed d;
     settings_removed := settings_added d;
     labelOrTypeChanged := mirror_changed <$> labelOrTypeChanged d;
     fieldIdDrift := mirror_drift <$> fieldIdDrift d;
     dropdownsMissingOptionsA := dropdownsMissingOptionsB d;
     dropdownsMissingOptionsB := dropdownsMissingOptionsA d;
     radioOrderingChangedWithoutLabelChange :=
       mirror_reordered <$> radioOrderingChangedWithoutLabelChange d |}.

(** A dropdown setting whose options are empty. *)
Definition lacks_options (item : Setting) : bool :=
  str_in (setting_type item) ["dropdown_native"; "dropdown_aria"]
  && Nat.eqb (length (options item)) 0.

End StabilityNotions.

(* ===================================================================== *)
(** * Properties of the setting application engine *)
(* ===================================================================== *)

Module ApplyProps.
Import ApplySettings.

Ltac unfold_monad :=
  unfold bind, ret, catch, guarded, lift, count, input_value, is_checked,
    inner_text, query, get_records, set_records in *.

Lemma str_in_spec x l : str_in x l = true <-> In x l.
Proof.
  unfold str_in. rewrite existsb_exists. split.
  - intros (y & Hy & E). apply String.eqb_eq in E. by subst.
  - intros H. exists x. split; [done|]. apply String.eqb_refl.
Qed.

(** C9. A string that, trimmed and lowercased, is in neither recognized
    set normalizes to its truthiness: true for every non-empty string,
    false for the empty one only. *)
Theorem normalize_bool_falls_back_to_truthiness (s : string) :
  str_in (lower (strip s)) ["true"; "1"; "yes"; "on"] = false ->
  str_in (lower (strip s)) ["false"; "0"; "no"; "off"] = false ->
  normalize_bool (PStr s) = truthy (PStr s)
  /\ (s <> "" -> normalize_bool (PStr s) = true)
  /\ (normalize_bool (PStr s) = false <-> s = "").
Proof.
  intros Ht Hf.
  assert (E : normalize_bool (PStr s) = negb (String.eqb s "")).
  { unfold normalize_bool. cbv zeta. rewrite Ht, Hf. reflexivity. }
  rewrite E. split; [reflexivity|].
  destruct (String.eqb_spec s "") as [->|Hne]; simpl.
  - split; [by intros [] | by split].
  - split; [done|]. split; [discriminate | by intros ->].
Qed.

(** The whitespace-only string [" "] is not recognized, and is true. *)
Lemma normalize_bool_blank :
  normalize_bool (PStr " ") = truthy (PStr " ")
  /\ (" " <> "" -> normalize_bool (PStr " ") = true)
  /\ (normalize_bool (PStr " ") = false <-> " " = "").
Proof.
  apply (normalize_bool_falls_back_to_truthiness " "); reflexivity.
Defined.

Example normalize_bool_examples :
  normalize_bool (PStr "ON") = true /\ normalize_bool (PStr "0") = false
  /\ normalize_bool (PInt 1) = true /\ normalize_bool (PStr "") = false
  /\ normalize_bool (PStr " yes ") = true.
Proof. repeat split. Qed.

Section WithBrowser.
Context {B : Browser}.

(** Locator resolution only reads the page: it returns, and leaves the
    session as it was. *)
Lemma resolve_candidates_total scope candidates :
  forall index s,
    exists r, resolve_candidates scope index candidates s = (Ok r, s).
Proof.
  induction candidates as [|c rest IH]; intros index s; simpl.
  - by eexists.
  - destruct c as [sel|]; [|apply IH].
    destruct (selector_is_empty sel); [apply IH|].
    unfold_monad.
    destruct (selector_to_locator scope sel) as [l|e]; simpl.
    + destruct (b_count (live s) l) as [n|e]; simpl; [|apply IH].
      destruct (Nat.eqb n 1); [by eexists | apply IH].
    + apply IH.
Qed.

(** Its answer depends on the live page only. *)
Lemma resolve_candidates_live scope candidates :
  forall index s s',
    live s = live s' ->
    (resolve_candidates scope index candidates s).1
    = (resolve_candidates scope index candidates s').1.
Proof.
  induction candidates as [|c rest IH]; intros index s s' Hl; simpl.
  - done.
  - destruct c as [sel|]; [|by apply IH].
    destruct (selector_is_empty sel); [by apply IH|].
    unfold_monad. rewrite <- Hl.
    destruct (selector_to_locator scope sel) as [l|e]; simpl.
    + destruct (b_count (live s) l) as [n|e]; simpl; [|by apply IH].
      destruct (Nat.eqb n 1); [done | by apply IH].
    + by apply IH.
Qed.

Lemma resolve_candidates_passes scope c rest index s :
  passed_over (live s) scope c ->
  resolve_candidates scope index (c :: rest) s
  = resolve_candidates scope (S index) rest s.
Proof.
  unfold passed_over, candidate_count, usable. intros H. simpl.
  destruct c as [sel|]; [|done].
  destruct (selector_is_empty sel); [done|].
  unfold_monad.
  destruct (selector_to_locator scope sel) as [l|e]; simpl; [|done].
  destruct (b_count (live s) l) as [n|e]; simpl in *; [|done].
  destruct (Nat.eqb_spec n 1) as [->|]; [by destruct H | done].
Qed.

Lemma resolve_candidates_first_unique scope pre c post l :
  forall index s,
    Forall (passed_over (live s) scope) pre ->
    candidate_count (live s) scope c = Some (l, 1) ->
    resolve_candidates scope index (pre ++ c :: post) s
    = (Ok (Some (First l), summary_of (index + length pre)), s).
Proof.
  induction pre as [|p pre IH]; intros index s Hpre Hc.
  - simpl. rewrite Nat.add_0_r.
    unfold candidate_count, usable in Hc.
    destruct c as [sel|]; [|done].
    destruct (selector_is_empty sel); [done|].
    unfold_monad.
    destruct (selector_to_locator scope sel) as [l'|e]; simpl in *; [|done].
    destruct (b_count (live s) l') as [n|e]; simpl in *; [|done].
    by simplify_eq.
  - apply Forall_cons in Hpre as [Hp Hpre].
    rewrite <- app_comm_cons, resolve_candidates_passes by done.
    rewrite IH by done. simpl. by rewrite Nat.add_succ_r.
Qed.


Lemma resolve_field_locator_at page scope setting s s' r :
  live s = live s' ->
  (resolve_field_locator page scope setting s).1 = Ok r ->
  resolve_field_locator page scope setting s' = (Ok r, s').
Proof.
  unfold resolve_field_locator, bind, lift. intros Hl Hr.
  destruct (candidates_of setting) as [candidates|e]; [|done].
  destruct (resolve_candidates_total scope candidates 0 s') as [r' E].
  rewrite (resolve_candidates_live _ _ _ s s' Hl), E in Hr.
  simpl in Hr. by simplify_eq.
Qed.

(** The three types without a write strategy are none of the others. *)
Lemma not_writable_cases t :
  type_in t ["button_dialog"; "text_display"; "table"] = true ->
  t = Some "button_dialog" \/ t = Some "text_display" \/ t = Some "table".
Proof.
  destruct t as [x|]; [|done]. unfold type_in. intros H%str_in_spec.
  simpl in H. destruct H as [<-|[<-|[<-|[]]]]; auto.
Qed.

Lemma apply_setting_not_writable page scope setting desired timeout_ms s
  locator used :
  type_in (s_type setting) ["button_dialog"; "text_display"; "table"] = true ->
  resolve_field_locator page scope setting s = (Ok (Some locator, used), s) ->
  apply_setting page scope setting desired timeout_ms s
  = (Ok (true, false, "not-writable"), s).
Proof.
  intros Ht Hr. unfold apply_setting, bind. rewrite Hr.
  destruct (not_writable_cases _ Ht) as [E|[E|E]]; rewrite E; reflexivity.
Qed.

(** One turn of the loop over an open container's settings. *)
Lemma apply_all_step page scope container_key i rest timeout_ms outs
  changed_count s stored desired v s' :
  records s !! i = Some stored ->
  s_desired stored = Some desired ->
  apply_setting page scope (with_desired None stored) desired timeout_ms
    {| live := live s; log := log s;
       records := <[i := with_desired None stored]> (records s) |}
  = (Ok v, s') ->
  apply_all page scope container_key (i :: rest) timeout_ms outs
    changed_count s
  = apply_all page scope container_key rest timeout_ms
      (outs ++ [applied_outcome container_key (with_desired None stored)
                  desired v])
      (if v.1.1 && v.1.2 then S changed_count else changed_count) s'.
Proof.
  intros Hi Hd Ha. simpl. unfold bind at 1. unfold get_records at 1.
  rewrite Hi, Hd. unfold bind at 1. unfold set_records at 1.
  unfold bind at 1. rewrite Ha. by destruct v as [[ok changed] note].
Qed.

(** C1 (amended). A setting of type [button_dialog], [text_display] or
    [table] whose locator resolves is not written to: [apply_setting]
    answers [(True, False, "not-writable")] and leaves the page and the
    action log as they were, and the loop records an outcome with status
    [skipped] and detail [not-writable], the change count unchanged. *)
Theorem not_writable_is_skipped page scope container_key i rest timeout_ms
  outs changed_count s stored desired locator used :
  records s !! i = Some stored ->
  s_desired stored = Some desired ->
  type_in (s_type stored) ["button_dialog"; "text_display"; "table"] = true ->
  (resolve_field_locator page scope (with_desired None stored) s).1
  = Ok (Some locator, used) ->
  let setting := with_desired None stored in
  let s' := {| live := live s; log := log s;
               records := <[i := setting]> (records s) |} in
  apply_setting page scope setting desired timeout_ms s'
  = (Ok (true, false, "not-writable"), s')
  /\ apply_all page scope container_key (i :: rest) timeout_ms outs
       changed_count s
     = apply_all page scope container_key rest timeout_ms
         (outs ++ [ {| o_settingKey := s_settingKey stored;
                       o_containerKey := container_key;
                       o_type := Some (s_type stored);
                       o_desired := Some desired;
                       o_status := "skipped";
                       o_detail := Some "not-writable";
                       o_reason := None |} ])
         changed_count s'.
Proof.
  intros Hi Hd Ht Hr setting s'.
  assert (Ha : apply_setting page scope setting desired timeout_ms s'
               = (Ok (true, false, "not-writable"), s')).
  { apply (apply_setting_not_writable _ _ _ _ _ _ locator used); [done|].
    by apply (resolve_field_locator_at _ _ _ s). }
  split; [done|].
  by rewrite (apply_all_step _ _ _ _ _ _ _ _ _ _ _ _ _ Hi Hd Ha).
Qed.

(** Verification only reads the page, and swallows what the reads raise. *)
Lemma verify_locator_value_total locator setting desired s :
  exists b, verify_locator_value locator setting desired s = (Ok b, s).
Proof.
  unfold verify_locator_value. unfold_monad.
  repeat match goal with
         | |- context [if ?c then _ else _] => destruct c
         | |- context [match ?r with Ok _ => _ | Raised _ => _ end] =>
             destruct r
         end; by eexists.
Qed.

Lemma verify_and_return_spec locator setting desired used changed s :
  exists b,
    verify_locator_value locator setting desired s = (Ok b, s)
    /\ verify_and_return locator setting desired used changed s
       = (Ok (if b || type_in (s_type setting) ["radio_group"; "dropdown_aria"]
              then (true, changed, used)
              else (false, changed, "verification-failed")), s).
Proof.
  destruct (verify_locator_value_total locator setting desired s) as [b E].
  exists b. split; [done|]. unfold verify_and_return, guarded. rewrite E.
  by destruct b, (type_in _ _).
Qed.

(** Which verdicts report a change: only those that went through the
    verification after a write.  A verdict with [changed] set, for a type
    whose verification is not waived, is decided by the verification read
    on the page the write left. *)
Lemma apply_setting_changed_inv page scope setting desired timeout_ms s
  locator used ok note s' :
  resolve_field_locator page scope setting s = (Ok (Some locator, used), s) ->
  type_in (s_type setting) ["radio_group"; "dropdown_aria"] = false ->
  apply_setting page scope setting desired timeout_ms s
  = (Ok (ok, true, note), s') ->
  exists b,
    verify_locator_value locator setting desired s' = (Ok b, s')
    /\ (ok, note) = if b then (true, used) else (false, "verification-failed").
Proof.
  intros Hr Ht H. unfold apply_setting in H. unfold bind at 1 in H.
  rewrite Hr in H. cbv zeta in H.
  unfold guarded, perform, input_value, is_checked, count, query, catch,
    ret in H.
  repeat match type of H with
         | context [if ?c then _ else _] => destruct c eqn:?
         | context [match ?x with (_, _) => _ end] => destruct x eqn:?
         | context [match ?x with Ok _ => _ | Raised _ => _ end] =>
             destruct x eqn:?
         end;
    try discriminate;
    match type of H with
    | verify_and_return ?l ?st ?d ?u ?c ?s0 = _ =>
        destruct (verify_and_return_spec l st d u c s0) as (b & Hv & E);
        rewrite E, Ht, orb_false_r in H; exists b;
        destruct b; simplify_eq; by split
    | _ => simplify_eq
    end.
Qed.

(** The writes of the three strategies that read before they write: once
    the write returns, the verdict is the one of the verification, with
    [changed] set. *)
Lemma type_in_cases t l : type_in t l = true -> exists x, t = Some x /\ In x l.
Proof.
  destruct t as [x|]; [|done]. unfold type_in. intros H%str_in_spec. eauto.
Qed.

Lemma apply_setting_fill page scope setting desired timeout_ms s locator
  used cur w :
  resolve_field_locator page scope setting s = (Ok (Some locator, used), s) ->
  type_in (s_type setting) ["textbox"; "spinbutton"] = true ->
  b_input_value (live s) locator = Ok cur ->
  normalize_str (PStr cur) <> normalize_str desired ->
  b_perform (Fill locator (normalize_str desired) timeout_ms) (live s)
  = (w, Ok tt) ->
  apply_setting page scope setting desired timeout_ms s
  = verify_and_return locator setting desired used true
      {| live := w;
         log := log s ++ [Fill locator (normalize_str desired) timeout_ms];
         records := records s |}.
Proof.
  intros Hr Ht Hc Hne Hp. unfold apply_setting, bind. rewrite Hr, Ht.
  cbv zeta. unfold guarded at 1. unfold input_value, query. rewrite Hc.
  apply String.eqb_neq in Hne. rewrite Hne. cbn [negb].
  unfold guarded at 1. unfold perform. by rewrite Hp.
Qed.

Lemma apply_setting_check page scope setting desired timeout_ms s locator
  used current w :
  resolve_field_locator page scope setting s = (Ok (Some locator, used), s) ->
  type_in (s_type setting) ["checkbox"; "switch"] = true ->
  b_is_checked (live s) locator = Ok current ->
  current <> normalize_bool desired ->
  let a := if normalize_bool desired then Check locator timeout_ms
           else Uncheck locator timeout_ms in
  b_perform a (live s) = (w, Ok tt) ->
  apply_setting page scope setting desired timeout_ms s
  = verify_and_return locator setting desired used true
      {| live := w; log := log s ++ [a]; records := records s |}.
Proof.
  intros Hr Ht Hc Hne a Hp. unfold apply_setting, bind. rewrite Hr.
  destruct (type_in_cases _ _ Ht) as (x & E & Hx). rewrite E in *.
  assert (T : type_in (Some x) ["textbox"; "spinbutton"] = false).
  { simpl in Hx. by destruct Hx as [<-|[<-|[]]]. }
  rewrite T, Ht. cbv zeta. unfold guarded at 1.
  unfold is_checked, query. rewrite Hc.
  assert (Hb : Bool.eqb current (normalize_bool desired) = false).
  { by destruct current, (normalize_bool desired). }
  rewrite Hb. cbn [negb].
  unfold guarded at 1. unfold perform. fold a. by rewrite Hp.
Qed.

(** [click_save_if_needed] does nothing when nothing is counted changed. *)
Lemma click_save_if_needed_unchanged page scope container timeout_ms s :
  click_save_if_needed page scope container false timeout_ms s
  = (Ok false, s).
Proof. reflexivity. Qed.

(** The loop over a group's settings, taken in two parts. *)
Lemma apply_all_app page scope container_key pre post timeout_ms :
  forall outs changed_count s,
    apply_all page scope container_key (pre ++ post) timeout_ms outs
      changed_count s
    = match apply_all page scope container_key pre timeout_ms outs
              changed_count s with
      | (Ok (outs1, n1), s1) =>
          apply_all page scope container_key post timeout_ms outs1 n1 s1
      | (Raised e, s1) => (Raised e, s1)
      end.
Proof.
  induction pre as [|j pre IH]; intros outs n s; [done|].
  cbn [app apply_all]. unfold bind, get_records, set_records, lift.
  destruct (records s !! j) as [stored|]; [|apply IH].
  destruct (s_desired stored) as [desired|]; [|done].
  destruct (apply_setting _ _ _ _ _ _) as [[[[ok changed] note]|e] s1];
    [apply IH|done].
Qed.

(** [close_modal] swallows what its clicks and its key press raise. *)
Lemma click_close_returns page scope actions timeout_ms :
  forall s, exists b s',
    click_close page scope actions timeout_ms s = (Ok b, s').
Proof.
  induction actions as [|a rest IH]; intros s; simpl; [by eexists _, _|].
  destruct (usable (act_selector a)) as [selector|]; [|apply IH].
  unfold bind at 1. unfold catch at 1.
  match goal with
  | |- context [let '(_, _) := ?m s in _] =>
      destruct (m s) as [[[|]|e] s1]
  end; unfold ret; try apply IH; by eexists _, _.
Qed.

Lemma close_modal_returns page scope container timeout_ms s :
  exists s', close_modal page scope container timeout_ms s = (Ok tt, s').
Proof.
  unfold close_modal. destruct (negb _); [by eexists|].
  unfold bind.
  destruct (click_close_returns page scope
              (filter (fun a => type_in (act_kind a) ["cancel"; "close"]
                                = true) (c_actions container))
              timeout_ms s) as (b & s1 & ->).
  destruct b; [by eexists|]. unfold catch, perform, ret.
  destruct (b_perform _ _) as [w [[]|e]]; by eexists.
Qed.

(** C2 (amended). For a type other than [radio_group] and [dropdown_aria],
    when [apply_setting] has written (it reports [changed]) and the
    verification read on the resulting page does not match, the verdict is
    [(False, True, "verification-failed")] and the outcome has status
    [failed] with that detail.  The loop counts the changes of successful
    settings only: wherever the setting stands in its group and whatever
    the count is, this write is not added to the container's change
    count; and a group in which nothing else is counted is not saved:
    once its settings are through, the container key is not added to the
    saved containers and no save action is tried, all that follows is
    [close_modal]. *)
Theorem verification_failure_is_failed_and_not_counted page scope
  container_key i timeout_ms s stored desired locator used ok note s' :
  records s !! i = Some stored ->
  s_desired stored = Some desired ->
  type_in (s_type stored) ["radio_group"; "dropdown_aria"] = false ->
  let setting := with_desired None stored in
  let s1 := {| live := live s; log := log s;
               records := <[i := setting]> (records s) |} in
  (resolve_field_locator page scope setting s1).1 = Ok (Some locator, used) ->
  apply_setting page scope setting desired timeout_ms s1
  = (Ok (ok, true, note), s') ->
  (verify_locator_value locator setting desired s').1 = Ok false ->
  let failed_outcome :=
    {| o_settingKey := s_settingKey stored;
       o_containerKey := container_key;
       o_type := Some (s_type stored);
       o_desired := Some desired;
       o_status := "failed";
       o_detail := Some "verification-failed";
       o_reason := None |} in
  (ok, note) = (false, "verification-failed")
  /\ (forall rest outs changed_count,
        apply_all page scope container_key (i :: rest) timeout_ms outs
          changed_count s
        = apply_all page scope container_key rest timeout_ms
            (outs ++ [failed_outcome]) changed_count s')
  /\ (forall by_key container before after outs outs1 outs2 saved s0 sa s2,
        by_key !! container_key = Some container ->
        open_container page container timeout_ms s0 = (Ok scope, sa) ->
        apply_all page scope container_key before timeout_ms outs 0 sa
        = (Ok (outs1, 0), s) ->
        apply_all page scope container_key after timeout_ms
          (outs1 ++ [failed_outcome]) 0 s'
        = (Ok (outs2, 0), s2) ->
        exists s3,
          close_modal page scope container timeout_ms s2 = (Ok tt, s3)
          /\ process_group page by_key timeout_ms
               (container_key, before ++ i :: after) (outs, saved) s0
             = (Ok (outs2, saved), s3)).
Proof.
  intros Hi Hd Ht setting s1 Hr Ha Hv failed_outcome.
  apply (resolve_field_locator_at _ _ _ s1 s1) in Hr; [|done].
  destruct (apply_setting_changed_inv _ _ _ _ _ _ _ _ _ _ _ Hr Ht Ha)
    as (b & Hb & E).
  rewrite Hb in Hv. simpl in Hv. simplify_eq.
  assert (Hstep : forall rest outs changed_count,
             apply_all page scope container_key (i :: rest) timeout_ms outs
               changed_count s
             = apply_all page scope container_key rest timeout_ms
                 (outs ++ [failed_outcome]) changed_count s').
  { intros rest outs n.
    by rewrite (apply_all_step _ _ _ _ _ _ _ _ _ _ _ _ _ Hi Hd Ha). }
  split; [done|]. split; [done|].
  intros by_key container before after outs outs1 outs2 saved s0 sa s2
    Hk Hopen Hbefore Hafter.
  destruct (close_modal_returns page scope container timeout_ms s2)
    as [s3 Hclose].
  exists s3. split; [done|].
  unfold process_group. rewrite Hk. unfold bind at 1. rewrite Hopen.
  unfold bind at 1. rewrite apply_all_app, Hbefore, Hstep, Hafter.
  unfold bind at 1. rewrite click_save_if_needed_unchanged.
  unfold bind. by rewrite Hclose.
Qed.

End WithBrowser.

(** ** Frame conditions

    Everything the engine does to the browser leaves the setting records
    alone; only the loop over a container's settings pops [_desired]. *)

Section Frames.
Context {B : Browser} (F : relation session) `{!PreOrder F}.
Hypothesis F_page :
  forall s w l, F s {| live := w; log := l; records := records s |}.

Lemma frames_ret {A} (a : A) : frames F (ret a).
Proof. intros s. simpl. reflexivity. Qed.

Lemma frames_lift {A} (r : result A) : frames F (lift r).
Proof. intros s. simpl. reflexivity. Qed.

Lemma frames_query {A} (q : world -> locator -> result A) l :
  frames F (query q l).
Proof. intros s. simpl. reflexivity. Qed.

Lemma frames_get_records : frames F get_records.
Proof. intros s. simpl. reflexivity. Qed.

Lemma frames_perform a : frames F (perform a).
Proof.
  intros s. unfold perform. destruct (b_perform a (live s)). apply F_page.
Qed.

Lemma frames_bind {A C} (m : M A) (k : A -> M C) :
  frames F m -> (forall a, frames F (k a)) -> frames F (bind m k).
Proof.
  intros Hm Hk s. unfold bind. specialize (Hm s).
  destruct (m s) as [[a|e] s1]; simpl in *; [|done].
  etrans; [exact Hm | apply Hk].
Qed.

Lemma frames_catch {A} (m : M A) (h : exn -> M A) :
  frames F m -> (forall e, frames F (h e)) -> frames F (catch m h).
Proof.
  intros Hm Hh s. unfold catch. specialize (Hm s).
  destruct (m s) as [[a|e] s1]; simpl in *; [done|].
  etrans; [exact Hm | apply Hh].
Qed.

Lemma frames_guarded {A} changed (m : M A) (k : A -> M verdict) :
  frames F m -> (forall a, frames F (k a)) -> frames F (guarded changed m k).
Proof.
  intros Hm Hk s. unfold guarded. specialize (Hm s).
  destruct (m s) as [[a|e] s1]; simpl in *; [|done].
  etrans; [exact Hm | apply Hk].
Qed.

Ltac frame_step :=
  match goal with
  | |- frames _ (bind _ _) => apply frames_bind
  | |- frames _ (catch _ _) => apply frames_catch
  | |- frames _ (guarded _ _ _) => apply frames_guarded
  | |- frames _ (ret _) => apply frames_ret
  | |- frames _ (lift _) => apply frames_lift
  | |- frames _ (perform _) => apply frames_perform
  | |- frames _ (count _) => apply frames_query
  | |- frames _ (input_value _) => apply frames_query
  | |- frames _ (is_checked _) => apply frames_query
  | |- frames _ (inner_text _) => apply frames_query
  | |- frames _ get_records => apply frames_get_records
  | |- frames _ (if ?c then _ else _) => destruct c
  | |- frames _ (match ?x with _ => _ end) => destruct x
  | |- forall _, _ => intros
  | H : context [frames _ _] |- frames _ _ => by apply H
  end.

Ltac frame := repeat frame_step.

Lemma frames_resolve_candidates scope candidates :
  forall index, frames F (resolve_candidates scope index candidates).
Proof. induction candidates; intros index; simpl; frame. Qed.

Lemma frames_resolve_field_locator page scope setting :
  frames F (resolve_field_locator page scope setting).
Proof.
  unfold resolve_field_locator. apply frames_bind; [apply frames_lift|].
  intros candidates. apply frames_resolve_candidates.
Qed.

Lemma frames_verify_locator_value locator setting desired :
  frames F (verify_locator_value locator setting desired).
Proof. unfold verify_locator_value. frame. Qed.

Lemma frames_verify_and_return locator setting desired used changed :
  frames F (verify_and_return locator setting desired used changed).
Proof.
  unfold verify_and_return. apply frames_guarded.
  - apply frames_verify_locator_value.
  - frame.
Qed.

Lemma frames_apply_setting page scope setting desired timeout_ms :
  frames F (apply_setting page scope setting desired timeout_ms).
Proof.
  pose proof frames_resolve_field_locator.
  pose proof frames_verify_and_return.
  unfold apply_setting. frame.
Qed.

Lemma frames_click_steps page nav_path timeout_ms :
  frames F (click_steps page nav_path timeout_ms).
Proof. induction nav_path; simpl; frame. Qed.

Lemma frames_modal_by_role page role title timeout_ms :
  frames F (modal_by_role page role title timeout_ms).
Proof. unfold modal_by_role. frame. Qed.

Lemma frames_open_container page container timeout_ms :
  frames F (open_container page container timeout_ms).
Proof.
  pose proof frames_click_steps. pose proof frames_modal_by_role.
  unfold open_container. frame.
Qed.

Lemma frames_action_target page scope selector :
  frames F (action_target page scope selector).
Proof. unfold action_target. frame. Qed.

Lemma frames_click_save page scope actions timeout_ms :
  frames F (click_save page scope actions timeout_ms).
Proof.
  pose proof frames_action_target. induction actions; simpl; frame.
Qed.

Lemma frames_click_save_if_needed page scope container changed timeout_ms :
  frames F (click_save_if_needed page scope container changed timeout_ms).
Proof.
  pose proof frames_click_save. unfold click_save_if_needed. frame.
Qed.

Lemma frames_click_close page scope actions timeout_ms :
  frames F (click_close page scope actions timeout_ms).
Proof.
  pose proof frames_action_target. induction actions; simpl; frame.
Qed.

Lemma frames_close_modal page scope container timeout_ms :
  frames F (close_modal page scope container timeout_ms).
Proof.
  pose proof frames_click_close. unfold close_modal. frame.
Qed.

Lemma frames_apply_all page scope container_key timeout_ms idxs :
  Forall (pops F) idxs ->
  forall outs n,
    frames F (apply_all page scope container_key idxs timeout_ms outs n).
Proof.
  pose proof frames_apply_setting.
  induction 1 as [|i idxs Hi _ IH]; intros outs n; simpl; [frame|].
  intros s. unfold bind at 1. unfold get_records at 1.
  destruct (records s !! i) as [stored|] eqn:E; [|apply IH].
  destruct (s_desired stored); [|simpl; reflexivity].
  unfold bind at 1. unfold set_records at 1.
  etrans; [exact (Hi s stored E)|].
  match goal with |- F ?s1 (?m ?s1).2 => cut (frames F m) end.
  { intros Hm. apply Hm. }
  frame.
Qed.

Lemma frames_process_group page by_key timeout_ms k idxs acc :
  (is_Some (by_key !! k) -> Forall (pops F) idxs) ->
  frames F (process_group page by_key timeout_ms (k, idxs) acc).
Proof.
  pose proof frames_open_container. pose proof frames_apply_all.
  pose proof frames_click_save_if_needed. pose proof frames_close_modal.
  intros Hp. unfold process_group. destruct acc as [outs saved].
  destruct (by_key !! k) as [c|]; [|frame].
  assert (Forall (pops F) idxs) by (apply Hp; eauto).
  frame.
Qed.

Lemma frames_main_loop page by_key timeout_ms groups :
  Forall (fun g => is_Some (by_key !! g.1) -> Forall (pops F) g.2) groups ->
  forall acc, frames F (main_loop page by_key timeout_ms groups acc).
Proof.
  induction 1 as [|[k idxs] groups Hg _ IH]; intros acc; simpl; [frame|].
  apply frames_bind; [by apply frames_process_group | apply IH].
Qed.

End Frames.

(** ** Grouping *)

Section Grouping.

Lemma index_settings_sound items :
  forall i0 acc k i,
    index_settings i0 items acc !! k = Some i ->
    acc !! k = Some i
    \/ exists item,
         items !! (i - i0) = Some item /\ i0 <= i /\ key_of item = Some k.
Proof.
  induction items as [|item rest IH]; intros i0 acc k i H;
    cbn [index_settings] in H.
  - by left.
  - apply IH in H as [H|(item' & Hl & Hle & Hk)].
    + destruct (key_of item) as [k0|] eqn:Ek; [|by left].
      destruct (truthy_str (Some k0)); [|by left].
      destruct (decide (k0 = k)) as [->|Hne].
      * rewrite lookup_insert_eq in H. simplify_eq. right. exists item.
        by rewrite Nat.sub_diag.
      * rewrite lookup_insert_ne in H by done. by left.
    + right. exists item'. split; [|split; [lia|done]].
      by replace (i - i0) with (S (i - S i0)) by lia.
Qed.

(** A key of [settings_by_key] names a record that carries it. *)
Lemma settings_by_key_sound rs k i :
  settings_by_key rs !! k = Some i ->
  exists item, rs !! i = Some item /\ key_of item = Some k.
Proof.
  intros H. apply index_settings_sound in H as [H|(item & Hl & _ & Hk)].
  - by rewrite lookup_empty in H.
  - exists item. by rewrite Nat.sub_0_r in Hl.
Qed.

Lemma settings_by_key_inj rs k k' i :
  settings_by_key rs !! k = Some i -> settings_by_key rs !! k' = Some i ->
  k = k'.
Proof.
  intros (item & Hl & Hk)%settings_by_key_sound
         (item' & Hl' & Hk')%settings_by_key_sound.
  congruence.
Qed.

Lemma flat_groups_append k i groups :
  flat_groups (group_append k i groups) ≡ₚ flat_groups groups ++ [(k, i)].
Proof.
  induction groups as [|[k' l] rest IH]; simpl; [done|].
  destruct (String.eqb_spec k' k) as [->|Hne]; unfold flat_groups; simpl.
  - rewrite fmap_app. simpl. rewrite <- !app_assoc.
    apply Permutation_app_head. apply Permutation_app_comm.
  - fold (flat_groups (group_append k i rest)). fold (flat_groups rest).
    by rewrite IH, app_assoc.
Qed.

Lemma same_settings_lookup rs rs' i a :
  same_settings rs rs' -> rs !! i = Some a ->
  exists b, rs' !! i = Some b /\ with_desired None a = with_desired None b.
Proof.
  unfold same_settings. intros E H.
  assert (L : (with_desired None <$> rs') !! i = Some (with_desired None a)).
  { rewrite <- E, list_lookup_fmap, H. done. }
  rewrite list_lookup_fmap in L.
  destruct (rs' !! i) as [b|]; [|done]. simpl in L.
  exists b. split; [done|]. congruence.
Qed.

Lemma same_settings_sym rs rs' : same_settings rs rs' -> same_settings rs' rs.
Proof. unfold same_settings. congruence. Qed.

Lemma same_settings_insert rs i a d :
  rs !! i = Some a -> same_settings rs (<[i := with_desired d a]> rs).
Proof.
  unfold same_settings. intros H. rewrite list_fmap_insert.
  symmetry. apply list_insert_id. by rewrite list_lookup_fmap, H.
Qed.

Lemma same_settings_ckey (a b : Setting) :
  with_desired None a = with_desired None b ->
  s_containerKey a = s_containerKey b /\ s_settingKey a = s_settingKey b.
Proof. intros E. by injection E. Qed.

Variable by_key : gmap string nat.

(** Grouping changes [_desired] keys only; a grouped pair comes from a
    value whose key names the record, under the record's container key. *)
Lemma group_values_spec values :
  forall store groups,
    let r := group_values values by_key store groups in
    same_settings store r.1
    /\ forall k i,
         (k, i) ∈ flat_groups r.2 <->
         (k, i) ∈ flat_groups groups
         \/ exists key d item,
              (key, d) ∈ values /\ by_key !! key = Some i
              /\ store !! i = Some item /\ s_containerKey item = k.
Proof.
  induction values as [|[key d] rest IH]; intros store groups; simpl.
  - split; [done|]. intros k i. split; [by left|].
    intros [H|(key & d & item & H & _)]; [done|]. by apply elem_of_nil in H.
  - destruct (by_key !! key) as [i0|] eqn:Ek;
      [destruct (store !! i0) as [setting|] eqn:Es|].
    + specialize (IH (<[i0 := with_desired (Some d) setting]> store)
                    (group_append (s_containerKey setting) i0 groups)).
      destruct IH as [IH1 IH2].
      pose proof (same_settings_insert store i0 setting (Some d) Es) as Hs.
      split; [unfold same_settings in *; congruence|].
      intros k i. rewrite IH2, flat_groups_append, elem_of_app,
        list_elem_of_singleton. split.
      * intros [[H|H]|(key' & d' & item & Hin & Hk & Hl & Hc)].
        -- by left.
        -- simplify_eq. right. exists key, d, setting.
           split; [apply elem_of_cons; by left | done].
        -- right.
           destruct (same_settings_lookup _ _ _ _ (same_settings_sym _ _ Hs) Hl)
             as (b & Hb & Hw).
           apply same_settings_ckey in Hw as [Hw _].
           exists key', d', b. split; [apply elem_of_cons; by right|].
           split; [done|]. split; [done|]. congruence.
      * intros [H|(key' & d' & item & Hin & Hk & Hl & Hc)]; [by left; left|].
        apply elem_of_cons in Hin as [Hin|Hin].
        -- simplify_eq. left. by right.
        -- right. destruct (same_settings_lookup _ _ _ _ Hs Hl)
             as (b & Hb & Hw).
           apply same_settings_ckey in Hw as [Hw _].
           exists key', d', b. split; [done|]. split; [done|].
           split; [done|]. congruence.
    + destruct (IH store groups) as [IH1 IH2]. split; [done|].
      intros k i. rewrite IH2. split.
      * intros [H|(key' & d' & item & Hin & H)]; [by left|].
        right. exists key', d', item. split; [apply elem_of_cons; by right|done].
      * intros [H|(key' & d' & item & Hin & Hk & Hl & Hc)]; [by left|].
        apply elem_of_cons in Hin as [Hin|Hin]; [simplify_eq|].
        right. by exists key', d', item.
    + destruct (IH store groups) as [IH1 IH2]. split; [done|].
      intros k i. rewrite IH2. split.
      * intros [H|(key' & d' & item & Hin & H)]; [by left|].
        right. exists key', d', item. split; [apply elem_of_cons; by right|done].
      * intros [H|(key' & d' & item & Hin & Hk & Hl & Hc)]; [by left|].
        apply elem_of_cons in Hin as [Hin|Hin]; [simplify_eq|].
        right. by exists key', d', item.
Qed.

Lemma group_values_other values :
  forall store groups i,
    (forall key d, (key, d) ∈ values -> by_key !! key <> Some i) ->
    (group_values values by_key store groups).1 !! i = store !! i.
Proof.
  induction values as [|[key d] rest IH]; intros store groups i H; [done|].
  assert (Hrest : forall key d, (key, d) ∈ rest -> by_key !! key <> Some i).
  { intros key' d' Hin. apply (H key' d'). apply elem_of_cons. by right. }
  simpl. destruct (by_key !! key) as [i0|] eqn:Ek;
    [destruct (store !! i0) as [setting|] eqn:Es|]; try by apply IH.
  rewrite IH by done. apply list_lookup_insert_ne. intros ->.
  apply (H key d); [apply elem_of_cons; by left | done].
Qed.

Hypothesis by_key_inj :
  forall k k' i, by_key !! k = Some i -> by_key !! k' = Some i -> k = k'.

(** With distinct keys, a matched record leaves the grouping with the
    desired value of its key in [_desired]. *)
Lemma group_values_desired values :
  forall store groups key d i,
    NoDup values.*1 ->
    (key, d) ∈ values -> by_key !! key = Some i -> is_Some (store !! i) ->
    desired_at (group_values values by_key store groups).1 i = Some (Some d).
Proof.
  induction values as [|[key0 d0] rest IH];
    intros store groups key d i Hnd Hin Hk [setting Hs].
  { by apply elem_of_nil in Hin. }
  rewrite fmap_cons in Hnd. apply NoDup_cons in Hnd as [Hfresh Hnd].
  cbn [fst] in Hfresh.
  apply elem_of_cons in Hin as [Hin|Hin].
  - simplify_eq. simpl. rewrite Hk, Hs. unfold desired_at.
    rewrite group_values_other.
    + rewrite list_lookup_insert_eq by (by eapply lookup_lt_Some). done.
    + intros key' d' Hin' Hk'. apply Hfresh.
      rewrite (by_key_inj _ _ _ Hk Hk').
      apply list_elem_of_fmap. by exists (key', d').
  - simpl. destruct (by_key !! key0) as [i0|] eqn:Ek;
      [destruct (store !! i0) as [setting0|] eqn:Es|];
      try (apply (IH _ _ key); by eauto).
    apply (IH _ _ key); [done..|].
    apply lookup_lt_is_Some. rewrite length_insert.
    by eapply lookup_lt_Some.
Qed.

(** With distinct keys, no record is grouped twice. *)
Lemma group_values_NoDup values :
  forall store groups,
    NoDup values.*1 ->
    NoDup (flat_groups groups).*2 ->
    (forall k i key d,
       (k, i) ∈ flat_groups groups -> (key, d) ∈ values ->
       by_key !! key <> Some i) ->
    NoDup (flat_groups (group_values values by_key store groups).2).*2.
Proof.
  induction values as [|[key0 d0] rest IH];
    intros store groups Hnd Hg Hfree; [done|].
  rewrite fmap_cons in Hnd. apply NoDup_cons in Hnd as [Hfresh Hnd].
  cbn [fst] in Hfresh.
  assert (Hrest : forall k i key d,
             (k, i) ∈ flat_groups groups -> (key, d) ∈ rest ->
             by_key !! key <> Some i).
  { intros k i key d Hin Hin'. apply (Hfree k i key d Hin).
    apply elem_of_cons. by right. }
  simpl. destruct (by_key !! key0) as [i0|] eqn:Ek;
    [destruct (store !! i0) as [setting|] eqn:Es|]; try by apply IH.
  apply IH; [done| |].
  - rewrite flat_groups_append, fmap_app. simpl.
    apply NoDup_app. split; [done|]. split; [|apply NoDup_singleton].
    intros i Hi ->%list_elem_of_singleton.
    apply list_elem_of_fmap in Hi as ([k i] & -> & Hi). simpl in *.
    apply (Hfree k i key0 d0 Hi); [apply elem_of_cons; by left | done].
  - intros k i key d Hin Hin' Hk.
    rewrite flat_groups_append in Hin.
    apply elem_of_app in Hin as [Hin|Hin%list_elem_of_singleton].
    + by apply (Hrest k i key d).
    + simplify_eq. apply Hfresh. rewrite (by_key_inj _ _ _ Ek Hk).
      apply list_elem_of_fmap. by exists (key, d).
Qed.

End Grouping.

(** ** The main loop *)

Section Run.
Context {B : Browser}.

#[local] Instance same_records_preorder : PreOrder same_records.
Proof.
  split; unfold same_records, same_settings; [by intros s|].
  intros s1 s2 s3. congruence.
Qed.

#[local] Instance keeps_record_preorder i : PreOrder (keeps_record i).
Proof.
  split; unfold keeps_record; [by intros s|]. intros s1 s2 s3. congruence.
Qed.

#[local] Instance stays_popped_preorder i : PreOrder (stays_popped i).
Proof.
  split; unfold stays_popped; [by intros s|]. intros s1 s2 s3. auto.
Qed.

Lemma same_records_page s w l :
  same_records s {| live := w; log := l; records := records s |}.
Proof. done. Qed.

Lemma keeps_record_page i s w l :
  keeps_record i s {| live := w; log := l; records := records s |}.
Proof. done. Qed.

Lemma stays_popped_page i s w l :
  stays_popped i s {| live := w; log := l; records := records s |}.
Proof. by intros H. Qed.

Lemma same_records_pops i : pops same_records i.
Proof. intros s stored H. by apply same_settings_insert. Qed.

Lemma keeps_record_pops i j : i <> j -> pops (keeps_record i) j.
Proof.
  intros Hne s stored H. unfold keeps_record. simpl.
  by apply list_lookup_insert_ne.
Qed.

Lemma stays_popped_pops i j : pops (stays_popped i) j.
Proof.
  intros s stored H. unfold stays_popped, desired_at. simpl.
  destruct (decide (j = i)) as [->|Hne].
  - rewrite list_lookup_insert_eq by (by eapply lookup_lt_Some). done.
  - by rewrite list_lookup_insert_ne.
Qed.

Lemma bind_Ok_inv {A C} (m : M A) (k : A -> M C) s r s' :
  bind m k s = (Ok r, s') ->
  exists a s1, m s = (Ok a, s1) /\ k a s1 = (Ok r, s').
Proof.
  unfold bind. destruct (m s) as [[a|e] s1]; [eauto | discriminate].
Qed.

Variables (rs0 : list Setting) (by_key : gmap string Container).
Variables (page : locator) (timeout_ms : Z).

(** The loop over an open container's settings appends one outcome for
    each of them, in order, and leaves each with [_desired] popped. *)
Lemma apply_all_outcomes scope k idxs :
  is_Some (by_key !! k) ->
  forall outs n s outs' n' s',
    same_settings rs0 (records s) ->
    Forall (fun i => is_Some (rs0 !! i)) idxs ->
    apply_all page scope k idxs timeout_ms outs n s = (Ok (outs', n'), s') ->
    same_settings rs0 (records s')
    /\ (forall i, i ∈ idxs -> desired_at (records s') i = Some None)
    /\ exists new,
         outs' = outs ++ new
         /\ Forall2 (fun i o => outcome_for rs0 by_key (k, i) o) idxs new.
Proof.
  intros Hk. induction idxs as [|i idxs IH];
    intros outs n s outs' n' s' Hsame Hvalid H.
  - simpl in H. injection H as <- <- <-. split; [done|].
    split; [by intros i ?%elem_of_nil|]. exists []. by rewrite app_nil_r.
  - apply Forall_cons in Hvalid as [[item Hitem] Hvalid].
    destruct (same_settings_lookup _ _ _ _ Hsame Hitem) as (stored & Hst & Hw).
    cbn [apply_all] in H. unfold bind at 1 in H. unfold get_records at 1 in H.
    rewrite Hst in H. destruct (s_desired stored) as [desired|]; [|done].
    unfold bind at 1 in H. unfold set_records at 1 in H.
    apply bind_Ok_inv in H as (v & s2 & Ha & H).
    set (s1 := {| live := live s; log := log s;
                  records := <[i := with_desired None stored]> (records s) |})
      in *.
    assert (Hs1 : same_settings rs0 (records s1)).
    { exact (eq_trans Hsame (same_settings_insert _ _ _ None Hst)). }
    assert (Hs2 : same_settings rs0 (records s2)).
    { pose proof (frames_apply_setting same_records same_records_page
                    page scope (with_desired None stored) desired timeout_ms
                    s1) as Hf.
      rewrite Ha in Hf. exact (eq_trans Hs1 Hf). }
    assert (Hp2 : desired_at (records s2) i = Some None).
    { pose proof (frames_apply_setting (stays_popped i) (stays_popped_page i)
                    page scope (with_desired None stored) desired timeout_ms
                    s1) as Hf.
      rewrite Ha in Hf. apply Hf. unfold desired_at. simpl.
      rewrite list_lookup_insert_eq by (by eapply lookup_lt_Some). done. }
    destruct v as [[ok changed] note].
    pose proof H as H'.
    apply IH in H as (Hs' & Hpop & new & -> & Hnew); [|done..].
    split; [done|]. split.
    + intros j [->|Hj]%elem_of_cons; [|by apply Hpop].
      epose proof (frames_apply_all (stays_popped i) (stays_popped_page i)
                     page scope k timeout_ms idxs
                     (Forall_true _ idxs (stays_popped_pops i))
                     _ _ s2) as Hf.
      rewrite H' in Hf. by apply Hf.
    + eexists (_ :: new). rewrite <- app_assoc. split; [done|].
      constructor; [|done]. exists item.
      apply same_settings_ckey in Hw as [_ Hw]. simpl.
      split; [done|]. split; [by rewrite Hw|]. split; [done|].
      intros Hnone. rewrite Hnone in Hk. by destruct Hk.
Qed.

Lemma missing_outcomes_for k idxs rs :
  by_key !! k = None ->
  same_settings rs0 rs ->
  Forall (fun i => is_Some (rs0 !! i)) idxs ->
  Forall2 (fun i o => outcome_for rs0 by_key (k, i) o) idxs
    (missing_outcomes rs k idxs).
Proof.
  intros Hk Hsame. induction 1 as [|i idxs [item Hitem] _ IH]; [constructor|].
  destruct (same_settings_lookup _ _ _ _ Hsame Hitem) as (stored & Hst & Hw).
  unfold missing_outcomes. cbn [omap list_omap]. rewrite Hst. simpl.
  constructor; [|exact IH]. exists item.
  apply same_settings_ckey in Hw as [_ Hw]. simpl.
  split; [done|]. split; [by rewrite Hw|]. split; [done|].
  intros _. unfold missing_outcome. by rewrite Hw.
Qed.

Lemma process_group_outcomes k idxs acc s r s' :
  same_settings rs0 (records s) ->
  Forall (fun i => is_Some (rs0 !! i)) idxs ->
  process_group page by_key timeout_ms (k, idxs) acc s = (Ok r, s') ->
  same_settings rs0 (records s')
  /\ (is_Some (by_key !! k) ->
      forall i, i ∈ idxs -> desired_at (records s') i = Some None)
  /\ exists new,
       r.1 = acc.1 ++ new
       /\ Forall2 (fun i o => outcome_for rs0 by_key (k, i) o) idxs new.
Proof.
  intros Hsame Hvalid H. unfold process_group in H.
  destruct acc as [outs saved]. destruct (by_key !! k) as [c|] eqn:Hk.
  - apply bind_Ok_inv in H as (scope & s1 & Ho & H).
    apply bind_Ok_inv in H as ([outs1 n1] & s2 & Ha & H).
    apply bind_Ok_inv in H as (saved' & s3 & Hsv & H).
    apply bind_Ok_inv in H as (u & s4 & Hc & H).
    injection H as <- <-.
    assert (Hs1 : same_settings rs0 (records s1)).
    { pose proof (frames_open_container same_records same_records_page
                    page c timeout_ms s) as Hf.
      rewrite Ho in Hf. exact (eq_trans Hsame Hf). }
    apply apply_all_outcomes in Ha as (Hs2 & Hpop & new & -> & Hnew);
      [|by rewrite Hk|done..].
    pose proof (fun F (HF : PreOrder F) Hp =>
                  frames_click_save_if_needed F Hp page scope c
                    (Nat.ltb 0 n1) timeout_ms s2) as Hf3.
    pose proof (fun F (HF : PreOrder F) Hp =>
                  frames_close_modal F Hp page scope c timeout_ms s3) as Hf4.
    rewrite Hsv in Hf3. rewrite Hc in Hf4.
    split; [|split].
    + exact (eq_trans (eq_trans Hs2 (Hf3 same_records _ same_records_page))
               (Hf4 same_records _ same_records_page)).
    + intros _ i Hi.
      apply (Hf4 (stays_popped i) _ (stays_popped_page i)).
      apply (Hf3 (stays_popped i) _ (stays_popped_page i)).
      by apply Hpop.
    + by exists new.
  - unfold bind, get_records, ret in H. injection H as <- <-.
    split; [done|]. split; [by intros [? ?]|].
    eexists. split; [done|]. by apply missing_outcomes_for.
Qed.

(** The outcomes of the main loop are, one for one and in order, those of
    the grouped settings; the records differ from the schema's in their
    [_desired] keys at most, and the settings of the containers that
    exist end with the key popped. *)
Lemma main_loop_outcomes groups :
  forall acc s r s',
    same_settings rs0 (records s) ->
    Forall (fun g => is_Some (rs0 !! g.2)) (flat_groups groups) ->
    main_loop page by_key timeout_ms groups acc s = (Ok r, s') ->
    same_settings rs0 (records s')
    /\ (forall g, g ∈ flat_groups groups -> is_Some (by_key !! g.1) ->
        desired_at (records s') g.2 = Some None)
    /\ exists new,
         r.1 = acc.1 ++ new
         /\ Forall2 (outcome_for rs0 by_key) (flat_groups groups) new.
Proof.
  induction groups as [|[k idxs] rest IH]; intros acc s r s' Hsame Hvalid H.
  - simpl in H. injection H as <- <-. split; [done|].
    split; [by intros g ?%elem_of_nil|]. exists []. by rewrite app_nil_r.
  - change (flat_groups ((k, idxs) :: rest))
      with ((pair k <$> idxs) ++ flat_groups rest) in *.
    apply Forall_app in Hvalid as [Hv1 Hv2]. rewrite Forall_fmap in Hv1.
    cbn [main_loop] in H. apply bind_Ok_inv in H as (acc1 & s1 & Hg & H).
    apply process_group_outcomes in Hg as (Hs1 & Hpop1 & new1 & E1 & Hnew1);
      [|done..].
    pose proof H as H'.
    apply IH in H as (Hs' & Hpop & new & E & Hnew); [|done..].
    split; [done|]. split.
    + intros g [Hg|Hg]%elem_of_app Hc; [|by apply Hpop].
      apply list_elem_of_fmap in Hg as (i & -> & Hi).
      pose proof (frames_main_loop (stays_popped i) (stays_popped_page i)
                    page by_key timeout_ms rest
                    (Forall_true _ rest
                       (fun g _ => Forall_true _ g.2 (stays_popped_pops i)))
                    acc1 s1) as Hf.
      rewrite H' in Hf. apply Hf. by apply Hpop1.
    + exists (new1 ++ new). rewrite E, E1, <- app_assoc. split; [done|].
      apply Forall2_app; [|done]. by apply Forall2_fmap_l.
Qed.

(** Outside the groups whose container exists, the main loop leaves the
    records as they are, whether it completes or raises. *)
Lemma main_loop_keeps_record groups i acc s :
  (forall k, (k, i) ∈ flat_groups groups -> by_key !! k = None) ->
  records (main_loop page by_key timeout_ms groups acc s).2 !! i
  = records s !! i.
Proof.
  intros H.
  apply (frames_main_loop (keeps_record i) (keeps_record_page i)).
  apply Forall_forall. intros [k idxs] Hin [c Hc]. simpl in *.
  apply Forall_forall. intros j Hj. apply keeps_record_pops. intros ->.
  assert (Hm : (k, j) ∈ flat_groups groups).
  { unfold flat_groups. apply list_elem_of_In, in_flat_map.
    exists (k, idxs). split; [by apply list_elem_of_In|].
    apply list_elem_of_In, list_elem_of_fmap. by exists j. }
  apply H in Hm. congruence.
Qed.

End Run.

(** ** Whole runs *)

Section Runs.
Context {B : Browser}.

Lemma run_unfold w schema values timeout_ms :
  run w schema values timeout_ms
  = let rs0 := records_of schema in
    let gv := group_values values (settings_by_key rs0) rs0 [] in
    match main_loop Page (containers_by_key (containers schema)) timeout_ms
            gv.2 ([], []) {| live := w; log := []; records := gv.1 |}
    with
    | (Ok r, s') => (Ok (report_of r.1 r.2), s')
    | (Raised e, s') => (Raised e, s')
    end.
Proof.
  unfold run, main, bind, get_records, set_records. simpl.
  destruct (group_values _ _ _ _) as [store groups]. simpl.
  by destruct (main_loop _ _ _ _ _ _) as [[[outs saved]|e] s'].
Qed.

(** Every grouped pair names a record of the schema under its key. *)
Lemma groups_of_spec schema values k i :
  (k, i) ∈ flat_groups (groups_of schema values) <->
  exists key d item,
    (key, d) ∈ values
    /\ settings_by_key (records_of schema) !! key = Some i
    /\ records_of schema !! i = Some item /\ s_containerKey item = k.
Proof.
  unfold groups_of.
  destruct (group_values_spec (settings_by_key (records_of schema)) values
              (records_of schema) []) as [_ H].
  rewrite H. split; [|by right]. intros [Hn|Hx]; [|done].
  by apply elem_of_nil in Hn.
Qed.

Lemma groups_of_valid schema values :
  Forall (fun g => is_Some (records_of schema !! g.2))
    (flat_groups (groups_of schema values)).
Proof.
  apply Forall_forall. intros [k i] Hg.
  apply groups_of_spec in Hg as (key & d & item & _ & _ & Hi & _).
  simpl. by rewrite Hi.
Qed.

(** C6 (amended). A desired value whose setting names a container key
    with no container in the schema gets exactly one outcome in the
    report of a completed run: the outcomes match the grouped settings
    one for one, the setting is grouped once, and its outcome has status
    [failed], the code [missing-container] under the key [reason] and no
    [detail], [type] or [desired] key.  The loop body for such a group
    returns at once, the session untouched: no container is opened. *)
Theorem missing_container_outcome w schema values timeout_ms key desired i
  setting report s' :
  NoDup values.*1 ->
  (key, desired) ∈ values ->
  settings_by_key (records_of schema) !! key = Some i ->
  records_of schema !! i = Some setting ->
  containers_by_key (containers schema) !! s_containerKey setting = None ->
  run w schema values timeout_ms = (Ok report, s') ->
  let by_container := containers_by_key (containers schema) in
  let order := flat_groups (groups_of schema values) in
  Forall2 (outcome_for (records_of schema) by_container) order
    (outcomes report)
  /\ (exists j,
        order !! j = Some (s_containerKey setting, i)
        /\ (forall j' g, order !! j' = Some g -> g.2 = i -> j' = j)
        /\ outcomes report !! j
           = Some {| o_settingKey := s_settingKey setting;
                     o_containerKey := s_containerKey setting;
                     o_type := None; o_desired := None;
                     o_status := "failed"; o_detail := None;
                     o_reason := Some "missing-container" |})
  /\ (forall idxs acc s,
        process_group Page by_container timeout_ms
          (s_containerKey setting, idxs) acc s
        = (Ok (acc.1 ++ missing_outcomes (records s) (s_containerKey setting)
                          idxs, acc.2), s)).
Proof.
  intros Hnd Hin Hk Hi Hc Hrun by_container order.
  rewrite run_unfold in Hrun. cbv zeta in Hrun.
  destruct (main_loop _ _ _ _ _ _) as [[r|e] s1] eqn:Hloop; [|done].
  injection Hrun as <- <-.
  destruct (group_values_spec (settings_by_key (records_of schema)) values
              (records_of schema) []) as [Hsame _].
  apply (main_loop_outcomes (records_of schema)) in Hloop
    as (_ & _ & new & E & Hnew);
    [|done|apply groups_of_valid].
  simpl in E. rewrite <- E in Hnew. clear new E.
  split; [exact Hnew|]. split.
  - assert (Hm : (s_containerKey setting, i) ∈ order).
    { apply groups_of_spec. by exists key, desired, setting. }
    apply list_elem_of_lookup in Hm as [j Hj]. exists j.
    split; [done|]. split.
    + intros j' [k' i'] Hj' Hi'. simpl in Hi'. subst i'.
      assert (Hn : NoDup order.*2).
      { apply (group_values_NoDup (settings_by_key (records_of schema))
                 (settings_by_key_inj (records_of schema)));
          [done|constructor|].
        by intros k0 i0 key0 d0 ?%elem_of_nil. }
      apply (NoDup_lookup _ j' j i Hn); rewrite list_lookup_fmap.
      * by rewrite Hj'.
      * by rewrite Hj.
    + destruct (Forall2_lookup_l _ _ _ _ _ Hnew Hj)
        as (o & Ho & setting' & Hs' & _ & _ & Hmiss).
      simpl in *. rewrite Hi in Hs'. injection Hs' as <-.
      rewrite Ho. f_equal. by apply Hmiss.
  - intros idxs [outs saved] s. subst by_container.
    unfold process_group. by rewrite Hc.
Qed.

(** C10. The engine mutates the setting records it is given.  With
    [values] a dictionary, grouping writes the desired value of a matched
    setting into its [_desired] key.  When the setting's container is
    missing the key is still there when the run ends, whether it returns
    or raises; when its container exists the loop pops the key before it
    applies the setting, and a run that completes leaves the record
    without it. *)
Theorem desired_key_left_on_missing_container w schema values timeout_ms key
  desired i setting :
  NoDup values.*1 ->
  (key, desired) ∈ values ->
  settings_by_key (records_of schema) !! key = Some i ->
  records_of schema !! i = Some setting ->
  let by_key := settings_by_key (records_of schema) in
  let by_container := containers_by_key (containers schema) in
  let final := records (run w schema values timeout_ms).2 in
  desired_at (group_values values by_key (records_of schema) []).1 i
  = Some (Some desired)
  /\ (by_container !! s_containerKey setting = None ->
      desired_at final i = Some (Some desired))
  /\ (is_Some (by_container !! s_containerKey setting) ->
      (exists report, (run w schema values timeout_ms).1 = Ok report) ->
      desired_at final i = Some None)
  /\ (forall page scope container_key rest outs n s stored d,
        records s !! i = Some stored -> s_desired stored = Some d ->
        apply_all page scope container_key (i :: rest) timeout_ms outs n s
        = bind (apply_setting page scope (with_desired None stored) d
                  timeout_ms)
            (fun v =>
               apply_all page scope container_key rest timeout_ms
                 (outs ++ [applied_outcome container_key
                             (with_desired None stored) d v])
                 (if v.1.1 && v.1.2 then S n else n))
            {| live := live s; log := log s;
               records := <[i := with_desired None stored]> (records s) |}).
Proof.
  intros Hnd Hin Hk Hi by_key by_container final.
  assert (Hgrouped :
            desired_at (group_values values by_key (records_of schema) []).1 i
            = Some (Some desired)).
  { apply (group_values_desired by_key
             (settings_by_key_inj (records_of schema)) values _ _ key);
      [done..|by rewrite Hi]. }
  assert (Hm : (s_containerKey setting, i)
               ∈ flat_groups (groups_of schema values)).
  { apply groups_of_spec. by exists key, desired, setting. }
  split; [done|]. split; [|split].
  - intros Hc. unfold final. rewrite run_unfold. cbv zeta.
    pose proof (main_loop_keeps_record by_container Page timeout_ms
                  (group_values values by_key (records_of schema) []).2 i
                  ([], [])
                  {| live := w; log := [];
                     records := (group_values values by_key
                                   (records_of schema) []).1 |}) as Hkeep.
    fold by_key by_container.
    destruct (main_loop _ _ _ _ _ _) as [[r|e] s1]; simpl in *;
      unfold desired_at in *; rewrite Hkeep; try done;
      intros k (key' & d' & item & _ & _ & Hi' & <-)%groups_of_spec;
      congruence.
  - intros Hc [report Hrun]. unfold final. revert Hrun.
    rewrite run_unfold. cbv zeta. fold by_key by_container.
    destruct (main_loop _ _ _ _ _ _) as [[r|e] s1] eqn:Hloop; [|done].
    intros _. simpl.
    destruct (group_values_spec by_key values (records_of schema) [])
      as [Hsame _].
    apply (main_loop_outcomes (records_of schema)) in Hloop
      as (_ & Hpop & _); [|done|apply groups_of_valid].
    by apply (Hpop (s_containerKey setting, i)).
  - intros page scope container_key rest outs n s stored d Hs Hd.
    cbn [apply_all]. unfold bind at 1. unfold get_records at 1.
    rewrite Hs, Hd. unfold bind at 1. unfold set_records at 1.
    unfold bind. destruct (apply_setting _ _ _ _ _ _) as [[v|e] s1]; [|done].
    by destruct v as [[ok changed] note].
Qed.

End Runs.

(** ** The properties on the example page *)

Section Examples.
Import Demo.


(** A [table] setting on the example page. *)
Lemma not_writable_is_skipped_witness :
  apply_all Page Page "c1" [0] 15000 [] 0 (start [asked (PStr "x") grid])
  = (Ok ([ {| o_settingKey := Some "s1"; o_containerKey := "c1";
              o_type := Some (Some "table"); o_desired := Some (PStr "x");
              o_status := "skipped"; o_detail := Some "not-writable";
              o_reason := None |} ], 0),
     start [grid]).
Proof.
  destruct (not_writable_is_skipped (B := demo_browser) Page Page "c1" 0 []
              15000 [] 0 (start [asked (PStr "x") grid])
              (asked (PStr "x") grid) (PStr "x") (First (Css Page "#grid"))
              "primary") as [_ E]; [reflexivity..|].
  rewrite E. reflexivity.
Defined.

(** C1, as stated, fails: the run on a [table] setting whose selector
    matches one element writes nothing and reports it [skipped]. *)
Lemma not_writable_is_not_applied :
  (resolve_field_locator Page Page grid (start [grid])).1
  = Ok (Some (First (Css Page "#grid")), "primary")
  /\ exists report s',
       run (B := demo_browser) demo_page (demo_schema [grid])
         [("s1", PStr "x")] 15000 = (Ok report, s')
       /\ log s' = [] /\ live s' = demo_page
       /\ o_status <$> outcomes report = ["skipped"]
       /\ o_detail <$> outcomes report = [Some "not-writable"]
       /\ applied (counts report) = 0
       /\ ~ In "applied" (o_status <$> outcomes report).
Proof.
  split; [reflexivity|]. eexists _, _. split; [vm_compute; reflexivity|].
  repeat split. simpl. intros [H|[]]. discriminate H.
Qed.

(** A textbox on the example page that reverts to its old value, alone
    in its group: the write is logged, the outcome is [failed], the count
    stays at zero and the group ends without a save. *)
Lemma verification_failure_is_failed_and_not_counted_witness :
  let failed_outcome :=
    {| o_settingKey := Some "s1"; o_containerKey := "c1";
       o_type := Some (Some "textbox"); o_desired := Some (PStr "x");
       o_status := "failed"; o_detail := Some "verification-failed";
       o_reason := None |} in
  (false, "verification-failed") = (false, "verification-failed")
  /\ apply_all Page Page "c1" [0] 15000 [] 0
       (start [asked (PStr "x") locked])
     = (Ok ([failed_outcome], 0), after_fill_locked)
  /\ process_group Page
       (containers_by_key [page_container "c1" [save_button]]) 15000
       ("c1", [0]) ([], []) (start [asked (PStr "x") locked])
     = (Ok ([failed_outcome], []), after_fill_locked).
Proof.
  intros failed_outcome.
  destruct (verification_failure_is_failed_and_not_counted
              (B := demo_browser) Page Page "c1" 0 15000
              (start [asked (PStr "x") locked]) (asked (PStr "x") locked)
              (PStr "x") (First (Css Page "#locked")) "primary" false
              "verification-failed" after_fill_locked)
    as (H1 & H2 & H3); [reflexivity..|].
  split; [exact H1|]. split; [exact (H2 [] [] 0)|].
  destruct (H3 (containers_by_key [page_container "c1" [save_button]])
              (page_container "c1" [save_button]) [] [] [] []
              [failed_outcome] [] (start [asked (PStr "x") locked])
              (start [asked (PStr "x") locked]) after_fill_locked)
    as (s3 & Hclose & Hgroup); [reflexivity..|].
  cbn [app] in Hgroup. rewrite Hgroup. injection Hclose as <-. reflexivity.
Defined.

(** C2, as stated, fails: the write to a field that reverts to its old
    value is made and fails verification, the change count of the container
    stays at zero, and the save button, which a verified write clicks, is
    not clicked. *)
Lemma failed_verification_triggers_no_save :
  (exists report s',
     run (B := demo_browser) demo_page (demo_schema [locked])
       [("s1", PStr "x")] 15000 = (Ok report, s')
     /\ log s' = [Fill (First (Css Page "#locked")) "x" 15000]
     /\ o_status <$> outcomes report = ["failed"]
     /\ o_detail <$> outcomes report = [Some "verification-failed"]
     /\ savedContainers report = [])
  /\ (exists outs s',
        apply_all Page Page "c1" [0] 15000 [] 0
          (start [asked (PStr "x") locked]) = (Ok (outs, 0), s'))
  /\ (exists report s',
        run (B := demo_browser) demo_page (demo_schema [name])
          [("s1", PStr "x")] 15000 = (Ok report, s')
        /\ log s' = [Fill (First (Css Page "#name")) "x" 15000;
                     Click (First (Css Page "#save")) 15000]
        /\ savedContainers report = ["c1"]).
Proof.
  split; [|split].
  - eexists _, _. split; [vm_compute; reflexivity|]. by repeat split.
  - eexists _, _. vm_compute. reflexivity.
  - eexists _, _. split; [vm_compute; reflexivity|]. by repeat split.
Qed.

Lemma mixed_values_NoDup : NoDup mixed_values.*1.
Proof.
  refine (bool_decide_unpack (NoDup mixed_values.*1) _).
  vm_compute. exact I.
Defined.

(** A run where [s1] names the container [c2], which the schema lacks. *)
Lemma missing_container_outcome_witness :
  let schema := demo_schema [orphan; two_rows_then_name] in
  exists report s',
    run (B := demo_browser) demo_page schema mixed_values 15000
    = (Ok report, s')
    /\ Forall2
         (outcome_for (records_of schema)
            (containers_by_key (containers schema)))
         (flat_groups (groups_of schema mixed_values)) (outcomes report)
    /\ (exists j,
          flat_groups (groups_of schema mixed_values) !! j = Some ("c2", 0)
          /\ (forall j' g,
                flat_groups (groups_of schema mixed_values) !! j' = Some g ->
                g.2 = 0 -> j' = j)
          /\ outcomes report !! j
             = Some {| o_settingKey := Some "s1"; o_containerKey := "c2";
                       o_type := None; o_desired := None;
                       o_status := "failed"; o_detail := None;
                       o_reason := Some "missing-container" |})
    /\ (forall idxs acc s,
          process_group (B := demo_browser) Page
            (containers_by_key (containers schema)) 15000 ("c2", idxs) acc s
          = (Ok (acc.1 ++ missing_outcomes (records s) "c2" idxs, acc.2), s)).
Proof.
  intros schema. eexists _, _. split; [vm_compute; reflexivity|].
  eapply (missing_container_outcome (B := demo_browser) demo_page schema
            mixed_values 15000 "s1" (PStr "x") 0 orphan).
  - exact mixed_values_NoDup.
  - apply elem_of_cons. by left.
  - vm_compute. reflexivity.
  - reflexivity.
  - vm_compute. reflexivity.
  - vm_compute. reflexivity.
Defined.

(** C6, as stated, fails: the outcome of a setting whose container is
    missing has no [detail]; the code is under [reason]. *)
Lemma missing_container_has_no_detail :
  exists report s' o,
    run (B := demo_browser) demo_page
      (demo_schema [orphan; two_rows_then_name]) mixed_values 15000
    = (Ok report, s')
    /\ outcomes report !! 0 = Some o
    /\ o_settingKey o = Some "s1" /\ o_status o = "failed"
    /\ o_detail o = None /\ o_detail o <> Some "missing-container"
    /\ o_reason o = Some "missing-container"
    /\ log s' = [].
Proof.
  eexists _, _, _. split; [vm_compute; reflexivity|].
  split; [reflexivity|]. by repeat split.
Qed.

(** After that run, the record of [s1] still has [_desired]; the record
    of [s2], whose container exists, has not. *)
Lemma desired_key_left_on_missing_container_witness :
  let schema := demo_schema [orphan; two_rows_then_name] in
  let final :=
    records (run (B := demo_browser) demo_page schema mixed_values 15000).2 in
  desired_at final 0 = Some (Some (PStr "x"))
  /\ desired_at final 1 = Some None.
Proof.
  intros schema final. split.
  - destruct (desired_key_left_on_missing_container (B := demo_browser)
                demo_page schema mixed_values 15000 "s1" (PStr "x") 0 orphan)
      as (_ & H & _).
    + exact mixed_values_NoDup.
    + apply elem_of_cons. by left.
    + vm_compute. reflexivity.
    + reflexivity.
    + apply H. vm_compute. reflexivity.
  - destruct (desired_key_left_on_missing_container (B := demo_browser)
                demo_page schema mixed_values 15000 "s2" (PStr "old") 1
                two_rows_then_name) as (_ & _ & H & _).
    + exact mixed_values_NoDup.
    + apply elem_of_cons. right. apply elem_of_cons. right.
      apply elem_of_cons. by left.
    + vm_compute. reflexivity.
    + reflexivity.
    + apply H; [vm_compute; eauto|]. eexists. vm_compute. reflexivity.
Defined.

End Examples.

End ApplyProps.

(* ===================================================================== *)
(** * Properties of the schema drift detector *)
(* ===================================================================== *)

Module StabilityProps.
Import StabilityCheck.

(** ** Sorting and dictionaries *)

Lemma elem_of_sorted_set x (X : gset string) : x ∈ sorted_set X <-> x ∈ X.
Proof.
  unfold sorted_set, sorted. by rewrite merge_sort_Permutation, elem_of_elements.
Qed.

Lemma NoDup_sorted_set (X : gset string) : NoDup (sorted_set X).
Proof.
  unfold sorted_set, sorted. rewrite merge_sort_Permutation.
  apply NoDup_elements.
Qed.

Lemma sorted_set_empty : sorted_set ∅ = [].
Proof. unfold sorted_set. by rewrite elements_empty. Qed.

(** Two sorted lists are equal exactly when one list rearranges the other. *)
Lemma sorted_eq_iff (a b : list string) : sorted a = sorted b <-> a ≡ₚ b.
Proof.
  unfold sorted. split.
  - intros E. by rewrite <- (merge_sort_Permutation String.le a), E,
      merge_sort_Permutation.
  - intros Hp. apply (Sorted_unique String.le).
    + apply Sorted_merge_sort; apply _.
    + apply Sorted_merge_sort; apply _.
    + by rewrite !merge_sort_Permutation.
Qed.

Lemma flat_map_all_nil {A C} (f : A -> list C) l :
  (forall x, f x = []) -> flat_map f l = [].
Proof. intros H. induction l as [|x l IH]; simpl; [done|]. by rewrite H, IH. Qed.

Section Dict.
Context {A V : Type} (keep : A -> bool) (key : A -> string) (val : A -> V).

Lemma fold_step_sound items :
  forall acc k v,
    fold_left (dict_step keep key val) items acc !! k = Some v ->
    acc !! k = Some v
    \/ exists item,
         item ∈ items /\ keep item = true /\ key item = k /\ val item = v.
Proof.
  induction items as [|x items IH]; intros acc k v H; simpl in H.
  - by left.
  - apply IH in H as [H|(item & Hin & H)].
    + unfold dict_step in H. destruct (keep x) eqn:Hk; [|by left].
      destruct (decide (key x = k)) as [E|Hne].
      * rewrite E, lookup_insert_eq in H. right. exists x.
        split; [apply elem_of_cons; by left|]. by simplify_eq.
      * rewrite lookup_insert_ne in H by done. by left.
    + right. exists item. split; [apply elem_of_cons; by right|done].
Qed.

(** An entry of a comprehension comes from an item that was kept. *)
Lemma dict_of_sound items k v :
  dict_of keep key val items !! k = Some v ->
  exists item,
    item ∈ items /\ keep item = true /\ key item = k /\ val item = v.
Proof.
  intros H. apply fold_step_sound in H as [H|H]; [|done].
  by rewrite lookup_empty in H.
Qed.

(** Dropping items the comprehension does not keep changes nothing. *)
Lemma dict_of_filter (P : A -> bool) items :
  (forall x, keep x = true -> P x = true) ->
  dict_of keep key val (filter (fun x => P x = true) items)
  = dict_of keep key val items.
Proof.
  intros HP. unfold dict_of. generalize (∅ : gmap string V).
  induction items as [|x items IH]; intros acc; [done|].
  rewrite filter_cons. case_decide as Hx; simpl; [apply IH|].
  rewrite IH. f_equal. unfold dict_step. destruct (keep x) eqn:Hk; [|done].
  by rewrite (HP x Hk) in Hx.
Qed.

Lemma fold_step_dom items :
  forall acc k,
    k ∈ dom (fold_left (dict_step keep key val) items acc) <->
    k ∈ dom acc
    \/ exists item, item ∈ items /\ keep item = true /\ key item = k.
Proof.
  induction items as [|x items IH]; intros acc k; cbn [fold_left].
  - split; [by left|]. intros [H|(item & H & _)]; [done|].
    by apply elem_of_nil in H.
  - rewrite IH. unfold dict_step. split.
    + intros [H|(item & Hin & H)].
      * destruct (keep x) eqn:Hk; [|by left].
        apply dom_insert, elem_of_union in H as [H|H]; [|by left].
        apply elem_of_singleton in H. right. exists x.
        split; [apply elem_of_cons; by left | done].
      * right. exists item. split; [apply elem_of_cons; by right | done].
    + intros [H|(item & Hin & Hk & E)].
      * left. destruct (keep x); [|done].
        apply dom_insert, elem_of_union. by right.
      * apply elem_of_cons in Hin as [->|Hin].
        -- left. rewrite Hk, E. apply dom_insert, elem_of_union. left.
           by apply elem_of_singleton.
        -- right. by exists item.
Qed.

(** The keys of a comprehension are the keys of the items it keeps. *)
Lemma dict_of_dom items k :
  k ∈ dom (dict_of keep key val items) <->
  exists item, item ∈ items /\ keep item = true /\ key item = k.
Proof.
  unfold dict_of. rewrite fold_step_dom, dom_empty. split; [|by right].
  intros [H|H]; [|done]. by apply elem_of_empty in H.
Qed.

End Dict.

Lemma elem_of_flat_map {A C} (f : A -> list C) l y :
  y ∈ flat_map f l <-> exists x, x ∈ l /\ y ∈ f x.
Proof.
  rewrite list_elem_of_In, in_flat_map. split; intros (x & H1 & H2); exists x.
  - by rewrite !list_elem_of_In.
  - by rewrite <- !list_elem_of_In.
Qed.

Lemma filter_all {C} (P : C -> Prop) `{!forall x, Decision (P x)} l :
  Forall P l -> filter P l = l.
Proof.
  induction 1 as [|x l Hx _ IH]; [done|].
  by rewrite filter_cons_True, IH.
Qed.

Lemma filter_none {C} (P : C -> Prop) `{!forall x, Decision (P x)} l :
  Forall (fun x => ~ P x) l -> filter P l = [].
Proof.
  induction 1 as [|x l Hx _ IH]; [done|]. by rewrite filter_cons_False.
Qed.

(** A loop over distinct keys that tags what it appends with the key. *)
Lemma filter_flat_map_key {C} (tag : C -> string) (f : string -> list C)
  keys k :
  NoDup keys ->
  (forall k' e, e ∈ f k' -> tag e = k') ->
  filter (fun e => tag e = k) (flat_map f keys)
  = if decide (k ∈ keys) then f k else [].
Proof.
  intros Hnd Htag. induction Hnd as [|k0 keys Hfresh Hnd IH]; [done|].
  simpl. rewrite filter_app, IH.
  destruct (decide (k0 = k)) as [->|Hne].
  - destruct (decide (k ∈ keys)) as [|_]; [done|].
    destruct (decide (k ∈ k :: keys)) as [_|Hn].
    + rewrite app_nil_r.
      apply filter_all, Forall_forall. intros e He. by apply Htag.
    + destruct Hn. apply elem_of_cons. by left.
  - assert (E : filter (fun e => tag e = k) (f k0) = []).
    { apply filter_none, Forall_forall. intros e He.
      by rewrite (Htag k0 e He). }
    rewrite E. simpl.
    destruct (decide (k ∈ keys)) as [Hin|Hnin],
             (decide (k ∈ k0 :: keys)) as [Hin'|Hnin']; try done.
    + destruct Hnin'. apply elem_of_cons. by right.
    + apply elem_of_cons in Hin' as [->|?]; done.
Qed.

(** ** Substrings *)

Lemma append_cons x (a b : string) : String x a +:+ b = String x (a +:+ b).
Proof. reflexivity. Qed.

Lemma append_assoc (a b c : string) : (a +:+ b) +:+ c = a +:+ b +:+ c.
Proof.
  induction a as [|x a IH]; [done|]. by rewrite !append_cons, IH.
Qed.

Lemma lower_append (a b : string) : lower (a +:+ b) = lower a +:+ lower b.
Proof.
  induction a as [|x a IH]; [done|].
  rewrite append_cons. cbn [lower]. by rewrite append_cons, IH.
Qed.

Lemma prefix_spec (n : string) :
  forall h, String.prefix n h = true <-> exists post, h = n +:+ post.
Proof.
  induction n as [|x n IH]; intros h.
  - split; [intros _; by exists h|]. intros _. by destruct h.
  - destruct h as [|y h]; cbn [String.prefix].
    + split; [done|]. by intros [post ?].
    + destruct (ascii_dec x y) as [->|Hne].
      * rewrite IH. split; intros [post E]; exists post;
          rewrite append_cons in *; congruence.
      * split; [done|]. intros [post E]. rewrite append_cons in E.
        congruence.
Qed.

Lemma contains_spec (n h : string) :
  contains n h = true <-> exists pre post, h = pre +:+ n +:+ post.
Proof.
  induction h as [|y h IH].
  - cbn [contains]. rewrite orb_false_r, prefix_spec. split.
    + intros [post E]. by exists "", post.
    + intros (pre & post & E). destruct pre; [by exists post|done].
  - cbn [contains]. rewrite orb_true_iff, prefix_spec, IH. split.
    + intros [[post E]|(pre & post & E)].
      * by exists "", post.
      * exists (String y pre), post. by rewrite append_cons, E.
    + intros (pre & post & E). destruct pre as [|z pre].
      * left. by exists post.
      * right. exists pre, post. rewrite append_cons in E. congruence.
Qed.

(** A label that contains ["Last Updated"] contains ["date"] once it is
    lowercased. *)
Lemma last_updated_has_date (l : string) :
  contains "Last Updated" l = true -> contains "date" (lower l) = true.
Proof.
  rewrite !contains_spec. intros (pre & post & ->).
  exists (lower pre +:+ "last up"), ("d" +:+ lower post).
  rewrite !lower_append, !append_assoc. reflexivity.
Qed.

(** ** The comparison *)

(** C7. The added keys of [compare(A, B)] are the removed keys of
    [compare(B, A)], for containers and for settings, and the other way
    round.  They are the keys of [B] that [A] does not have: the keys of
    its containers, and the identifiers of its settings that have one. *)
Theorem added_is_removed_swapped (A B : Schema) :
  containers_added (compare_schemas A B)
  = containers_removed (compare_schemas B A)
  /\ settings_added (compare_schemas A B)
     = settings_removed (compare_schemas B A)
  /\ containers_removed (compare_schemas A B)
     = containers_added (compare_schemas B A)
  /\ settings_removed (compare_schemas A B)
     = settings_added (compare_schemas B A)
  /\ (forall k,
        k ∈ containers_removed (compare_schemas B A) <->
        (exists c, c ∈ containers B /\ c_containerKey c = k)
        /\ ~ (exists c, c ∈ containers A /\ c_containerKey c = k))
  /\ (forall k,
        k ∈ settings_removed (compare_schemas B A) <->
        (exists x, x ∈ schema_settings B /\ has_id x = true
                   /\ setting_id x = k)
        /\ ~ (exists x, x ∈ schema_settings A /\ has_id x = true
                        /\ setting_id x = k)).
Proof.
  do 4 (split; [reflexivity|]). split; intros k.
  - unfold compare_schemas. cbn [containers_removed].
    rewrite elem_of_sorted_set, elem_of_difference.
    unfold container_keys. rewrite !dict_of_dom.
    split; intros [(c & Hc & H) Hn].
    + split; [exists c; tauto|]. intros (c' & Hc' & H').
      apply Hn. by exists c'.
    + split; [by exists c|]. intros (c' & Hc' & _ & H').
      apply Hn. by exists c'.
  - unfold compare_schemas. cbn [settings_removed].
    rewrite elem_of_sorted_set, elem_of_difference.
    unfold settings_by_id. by rewrite !dict_of_dom.
Qed.

Lemma changed_labels_or_types_diag (m : gmap string Setting) :
  changed_labels_or_types m m = [].
Proof.
  unfold changed_labels_or_types. apply flat_map_all_nil. intros key.
  destruct (m !! key); [|done]. by rewrite !String.eqb_refl.
Qed.

Lemma field_id_drift_diag (m : gmap string string) : field_id_drift m m = [].
Proof.
  unfold field_id_drift. apply flat_map_all_nil. intros key.
  destruct (m !! key); [|done]. by rewrite String.eqb_refl.
Qed.

Lemma radio_ordering_changed_diag (m : gmap string (list string)) :
  radio_ordering_changed m m = [].
Proof.
  unfold radio_ordering_changed. apply flat_map_all_nil. intros key.
  destruct (m !! key); [|done]. by rewrite bool_decide_eq_true_2.
Qed.

(** C3 (amended). Comparing a snapshot with itself finds nothing added,
    removed, relabelled, retyped, drifted or reordered.  The two lists of
    dropdowns without options are not comparisons: both are the list for
    the snapshot itself, and drift is reported exactly when that list is
    not empty. *)
Theorem compare_with_itself (S : Schema) :
  let diff := compare_schemas S S in
  containers_added diff = [] /\ containers_removed diff = []
  /\ settings_added diff = [] /\ settings_removed diff = []
  /\ labelOrTypeChanged diff = [] /\ fieldIdDrift diff = []
  /\ radioOrderingChangedWithoutLabelChange diff = []
  /\ dropdownsMissingOptionsA diff
     = dropdown_missing_options (schema_settings S)
  /\ dropdownsMissingOptionsB diff
     = dropdown_missing_options (schema_settings S)
  /\ has_drift diff = nonempty (dropdown_missing_options (schema_settings S))
  /\ (dropdown_missing_options (schema_settings S) = [] ->
      has_drift diff = false).
Proof.
  intros diff.
  assert (E : forall X : gset string, sorted_set (X ∖ X) = []).
  { intros X. by rewrite difference_diag_L, sorted_set_empty. }
  assert (Hd : has_drift diff
               = nonempty (dropdown_missing_options (schema_settings S))).
  { unfold has_drift, diff, compare_schemas.
    cbn [containers_added containers_removed settings_added settings_removed
         labelOrTypeChanged fieldIdDrift dropdownsMissingOptionsA
         dropdownsMissingOptionsB radioOrderingChangedWithoutLabelChange].
    rewrite !E, changed_labels_or_types_diag, field_id_drift_diag,
      radio_ordering_changed_diag.
    by destruct (dropdown_missing_options (schema_settings S)). }
  unfold diff, compare_schemas at 1 2 3 4 5 6 7 8 9.
  cbn [containers_added containers_removed settings_added settings_removed
       labelOrTypeChanged fieldIdDrift dropdownsMissingOptionsA
       dropdownsMissingOptionsB radioOrderingChangedWithoutLabelChange].
  rewrite !E, changed_labels_or_types_diag, field_id_drift_diag,
    radio_ordering_changed_diag.
  repeat split; try done. intros H. fold diff. by rewrite Hd, H.
Qed.

(** An entry of [fieldIdDrift] comes from two settings with an
    identifier that are not timestamp fields. *)
Lemma field_id_drift_sources (first_items second_items : list Setting) d :
  d ∈ field_id_drift (signature_map first_items) (signature_map second_items)
  ->
  exists a b,
    a ∈ first_items /\ b ∈ second_items
    /\ is_timestamp_field a = false /\ is_timestamp_field b = false
    /\ setting_signature a = dr_signature d
    /\ setting_signature b = dr_signature d
    /\ setting_id a = firstFieldId d /\ setting_id b = secondFieldId d.
Proof.
  unfold field_id_drift. intros (sig & _ & Hd)%elem_of_flat_map.
  destruct (signature_map first_items !! sig) as [ia|] eqn:Ea;
    [|by apply elem_of_nil in Hd].
  destruct (signature_map second_items !! sig) as [ib|] eqn:Eb;
    [|by apply elem_of_nil in Hd].
  destruct (negb (String.eqb ia ib)); [|by apply elem_of_nil in Hd].
  apply list_elem_of_singleton in Hd as ->.
  apply dict_of_sound in Ea as (a & Ha & Hka & Hsa & Hia).
  apply dict_of_sound in Eb as (b & Hb & Hkb & Hsb & Hib).
  apply andb_true_iff in Hka as [_ Hta]. apply andb_true_iff in Hkb as [_ Htb].
  apply negb_true_iff in Hta. apply negb_true_iff in Htb.
  by exists a, b.
Qed.

Lemma signature_map_without_timestamps (items : list Setting) :
  signature_map (filter (fun y => negb (is_timestamp_field y) = true) items)
  = signature_map items.
Proof.
  apply (dict_of_filter _ _ _ (fun y => negb (is_timestamp_field y))).
  by intros x [_ H]%andb_true_iff.
Qed.

Lemma changed_labels_or_types_elem (m1 m2 : gmap string Setting) key x y :
  m1 !! key = Some x -> m2 !! key = Some y ->
  setting_type x <> setting_type y ->
  {| ch_settingKey := key;
     ch_first := {| lt_label := setting_label x; lt_type := setting_type x |};
     ch_second := {| lt_label := setting_label y;
                     lt_type := setting_type y |} |}
  ∈ changed_labels_or_types m1 m2.
Proof.
  intros H1 H2 Hne. unfold changed_labels_or_types.
  apply elem_of_flat_map. exists key. split.
  - apply elem_of_sorted_set, elem_of_intersection.
    split; apply elem_of_dom; eauto.
  - rewrite H1, H2. apply String.eqb_neq in Hne. rewrite Hne, orb_true_r.
    apply list_elem_of_singleton. reflexivity.
Qed.

(** C4. A setting whose label contains ["Last Updated"] and whose current
    value is ["2024/01/01 10:00"] is a timestamp field (either of the two
    is enough).  It is not the source of any [fieldIdDrift] entry, whatever
    its identifier in the two snapshots: each entry comes from two settings
    that are not timestamp fields, and dropping the timestamp fields from
    both snapshots leaves [fieldIdDrift] as it is.  The label and type
    comparison does not look at the classification: when the snapshots
    hold the setting under one identifier with two different types, it is
    in [labelOrTypeChanged]. *)
Theorem timestamp_field_excluded_from_drift_only (first second : Schema)
  (x : Setting) :
  contains "Last Updated" (setting_label x) = true ->
  current_value x = PStr "2024/01/01 10:00" ->
  let diff := compare_schemas first second in
  let kept := filter (fun y => negb (is_timestamp_field y) = true) in
  is_timestamp_field x = true
  /\ (forall y, current_value y = PStr "2024/01/01 10:00" ->
      is_timestamp_field y = true)
  /\ (forall d, d ∈ fieldIdDrift diff ->
      exists a b,
        a ∈ schema_settings first /\ b ∈ schema_settings second
        /\ a <> x /\ b <> x
        /\ setting_signature a = dr_signature d
        /\ setting_signature b = dr_signature d
        /\ setting_id a = firstFieldId d /\ setting_id b = secondFieldId d)
  /\ fieldIdDrift diff
     = field_id_drift (signature_map (kept (schema_settings first)))
         (signature_map (kept (schema_settings second)))
  /\ (forall key y,
        settings_by_id (schema_settings first) !! key = Some x ->
        settings_by_id (schema_settings second) !! key = Some y ->
        setting_type x <> setting_type y ->
        {| ch_settingKey := key;
           ch_first := {| lt_label := setting_label x;
                          lt_type := setting_type x |};
           ch_second := {| lt_label := setting_label y;
                           lt_type := setting_type y |} |}
        ∈ labelOrTypeChanged diff)
  /\ (forall key y,
        settings_by_id (schema_settings first) !! key = Some y ->
        settings_by_id (schema_settings second) !! key = Some x ->
        setting_type y <> setting_type x ->
        {| ch_settingKey := key;
           ch_first := {| lt_label := setting_label y;
                          lt_type := setting_type y |};
           ch_second := {| lt_label := setting_label x;
                           lt_type := setting_type x |} |}
        ∈ labelOrTypeChanged diff).
Proof.
  intros Hl Hv diff kept.
  assert (Hx : is_timestamp_field x = true).
  { unfold is_timestamp_field.
    by rewrite (last_updated_has_date _ Hl), orb_true_r. }
  split; [done|]. split; [|split; [|split; [|split]]].
  - intros y Hy. unfold is_timestamp_field. rewrite Hy.
    by destruct (contains "time" _ || contains "date" _).
  - intros d Hd.
    destruct (field_id_drift_sources _ _ d Hd)
      as (a & b & Ha & Hb & Hta & Htb & H).
    exists a, b. split; [done|]. split; [done|].
    split; [congruence|]. split; [congruence|]. done.
  - unfold diff, compare_schemas, kept. cbn [fieldIdDrift].
    by rewrite !signature_map_without_timestamps.
  - intros key y. apply changed_labels_or_types_elem.
  - intros key y. apply changed_labels_or_types_elem.
Qed.

Lemma radio_entry_tag (m1 m2 : gmap string (list string)) k e :
  e ∈ match m1 !! k, m2 !! k with
      | Some first_labels, Some second_labels =>
          if bool_decide (first_labels = second_labels) then []
          else if bool_decide (sorted first_labels = sorted second_labels)
          then [ {| ro_signature := k; firstOrder := first_labels;
                    secondOrder := second_labels |} ]
          else []
      | _, _ => []
      end ->
  ro_signature e = k.
Proof.
  destruct (m1 !! k), (m2 !! k); try by intros ?%elem_of_nil.
  repeat case_bool_decide; try by intros ?%elem_of_nil.
  by intros ->%list_elem_of_singleton.
Qed.

(** C8. For a [radio_group] signature in both snapshots, the entries of
    [radioOrderingChangedWithoutLabelChange] with that signature are: one
    entry, with the two orders, when the second sequence of labels
    rearranges the first and differs from it (for sequences without
    repeated labels: when they hold the same set of labels and differ);
    none when the two sequences are equal; none when one does not
    rearrange the other. *)
Theorem radio_reordering_recorded_once (first second : Schema) (sig : string)
  (first_labels second_labels : list string) :
  radio_order_index (schema_settings first) !! sig = Some first_labels ->
  radio_order_index (schema_settings second) !! sig = Some second_labels ->
  let entries :=
    filter (fun e => ro_signature e = sig)
      (radioOrderingChangedWithoutLabelChange (compare_schemas first second))
  in
  (first_labels ≡ₚ second_labels -> first_labels <> second_labels ->
   entries = [ {| ro_signature := sig; firstOrder := first_labels;
                  secondOrder := second_labels |} ])
  /\ (NoDup first_labels -> NoDup second_labels ->
      (forall l, l ∈ first_labels <-> l ∈ second_labels) ->
      first_labels <> second_labels ->
      entries = [ {| ro_signature := sig; firstOrder := first_labels;
                     secondOrder := second_labels |} ])
  /\ (first_labels = second_labels -> entries = [])
  /\ (~ first_labels ≡ₚ second_labels -> entries = []).
Proof.
  intros H1 H2 entries.
  assert (E : entries
              = if bool_decide (first_labels = second_labels) then []
                else if bool_decide (sorted first_labels = sorted second_labels)
                then [ {| ro_signature := sig; firstOrder := first_labels;
                          secondOrder := second_labels |} ]
                else []).
  { unfold entries, compare_schemas.
    cbn [radioOrderingChangedWithoutLabelChange].
    unfold radio_ordering_changed.
    rewrite filter_flat_map_key.
    - rewrite decide_True, H1, H2; [done|].
      apply elem_of_sorted_set, elem_of_intersection.
      split; apply elem_of_dom; eauto.
    - apply NoDup_sorted_set.
    - intros k e. apply radio_entry_tag. }
  assert (Hperm : first_labels ≡ₚ second_labels ->
                  first_labels <> second_labels ->
                  entries = [ {| ro_signature := sig;
                                 firstOrder := first_labels;
                                 secondOrder := second_labels |} ]).
  { intros Hp Hne. rewrite E, bool_decide_eq_false_2 by done.
    by rewrite bool_decide_eq_true_2 by (by apply sorted_eq_iff). }
  split; [done|]. split; [|rewrite E; split].
  - intros Hn1 Hn2 Hset. apply Hperm. by apply NoDup_Permutation.
  - intros ->. by rewrite bool_decide_eq_true_2.
  - intros Hnp. case_bool_decide as Heq; [done|].
    rewrite bool_decide_eq_false_2; [done|]. by rewrite sorted_eq_iff.
Qed.

(** ** The properties on example snapshots *)

Section Examples.
Import DemoSchemas.

(** C3, as stated, fails: a snapshot with a dropdown without options,
    compared with itself, has both missing-options lists non-empty and
    reports drift. *)
Lemma compare_with_itself_reports_empty_dropdown :
  let S := snapshot [empty_dropdown] in
  dropdownsMissingOptionsA (compare_schemas S S)
  = [ {| mo_fieldId := "mode"; mo_label := "Mode";
         mo_reason := "dropdown has empty options[]" |} ]
  /\ dropdownsMissingOptionsB (compare_schemas S S)
     = [ {| mo_fieldId := "mode"; mo_label := "Mode";
            mo_reason := "dropdown has empty options[]" |} ]
  /\ has_drift (compare_schemas S S) = true.
Proof. vm_compute. by repeat split. Qed.

(** A [Last Updated] field whose identifier changes is no drift; the same
    field with another type is a type change. *)
Lemma timestamp_field_excluded_from_drift_only_witness :
  let first := snapshot [updated "f-1" "text_display"] in
  let second := snapshot [updated "f-2" "text_display"] in
  let retyped := snapshot [updated "f-1" "textbox"] in
  setting_signature (updated "f-1" "text_display")
  = setting_signature (updated "f-2" "text_display")
  /\ fieldIdDrift (compare_schemas first second) = []
  /\ {| ch_settingKey := "f-1";
        ch_first := {| lt_label := "Last Updated";
                       lt_type := "text_display" |};
        ch_second := {| lt_label := "Last Updated";
                        lt_type := "textbox" |} |}
     ∈ labelOrTypeChanged (compare_schemas first retyped).
Proof.
  intros first second retyped. split; [reflexivity|]. split.
  - destruct (timestamp_field_excluded_from_drift_only first second
                (updated "f-1" "text_display")) as (_ & _ & _ & E & _);
      [reflexivity..|].
    rewrite E. vm_compute. reflexivity.
  - destruct (timestamp_field_excluded_from_drift_only first retyped
                (updated "f-1" "text_display")) as (_ & _ & _ & _ & H & _);
      [reflexivity..|].
    apply (H "f-1" (updated "f-1" "textbox"));
      [reflexivity | reflexivity | discriminate].
Defined.

(** Scenario D: options [A, B] against [B, A]. *)
Lemma radio_reordering_recorded_once_witness :
  let first := snapshot [radio ["A"; "B"]] in
  let second := snapshot [radio ["B"; "A"]] in
  filter (fun e => ro_signature e = "c1||Speed|radio_group")
    (radioOrderingChangedWithoutLabelChange (compare_schemas first second))
  = [ {| ro_signature := "c1||Speed|radio_group"; firstOrder := ["A"; "B"];
         secondOrder := ["B"; "A"] |} ]
  /\ filter (fun e => ro_signature e = "c1||Speed|radio_group")
       (radioOrderingChangedWithoutLabelChange (compare_schemas first first))
     = [].
Proof.
  intros first second. split.
  - destruct (radio_reordering_recorded_once first second
                "c1||Speed|radio_group" ["A"; "B"] ["B"; "A"]) as (H & _);
      [vm_compute; reflexivity..|].
    apply H; [apply Permutation_swap | discriminate].
  - destruct (radio_reordering_recorded_once first first
                "c1||Speed|radio_group" ["A"; "B"] ["A"; "B"])
      as (_ & _ & H & _);
      [vm_compute; reflexivity..|].
    by apply H.
Defined.

End Examples.

End StabilityProps.

(* ===================================================================== *)
(** * More properties of the setting application engine *)
(* ===================================================================== *)

Module ApplyMoreProps.
Import ApplySettings ApplyNotions ApplyProps.

Section Verdicts.
Context {B : Browser}.

(** The candidates are read before the page is: the resolution raises
    what reading them raises, and returns otherwise. *)
Lemma resolve_field_locator_cases page scope setting s :
  (exists e, candidates_of setting = Raised e
             /\ resolve_field_locator page scope setting s = (Raised e, s))
  \/ (exists candidates r,
        candidates_of setting = Ok candidates
        /\ resolve_field_locator page scope setting s = (Ok r, s)).
Proof.
  unfold resolve_field_locator, bind, lift.
  destruct (candidates_of setting) as [candidates|e]; [right|left; eauto].
  destruct (resolve_candidates_total scope candidates 0 s) as [r E].
  eauto.
Qed.

(** Reading the candidates raises exactly on the records that hold a
    [null] in the way of the resolution. *)
Lemma candidates_of_raises setting :
  if has_null_selectors setting
  then exists e, candidates_of setting = Raised e
  else exists candidates, candidates_of setting = Ok candidates.
Proof.
  unfold has_null_selectors, candidates_of, selector_block_of.
  destruct setting as [fid key ckey type [| |[p [| |f]]] [[[| |ps] [| |fs]]|]
                         opts d];
    simpl; eauto.
Qed.

(** Takes the [try] block of [apply_setting] apart, one call at a time. *)
Ltac split_verdict :=
  repeat match goal with
         | |- context [verify_and_return ?l ?st ?d ?u ?c ?s0] =>
             let b := fresh "b" in
             let Hb := fresh "Hb" in
             let E := fresh "E" in
             destruct (verify_and_return_spec l st d u c s0) as (b & Hb & E);
             rewrite E; clear E
         | |- context [if ?c then _ else _] => destruct c eqn:?
         | |- context [match ?x with (_, _) => _ end] => destruct x eqn:?
         | |- context [match ?x with Ok _ => _ | Raised _ => _ end] =>
             destruct x eqn:?
         end.

(** X1. [apply_setting] raises on one kind of record only: one that
    holds [null] where the resolution, which runs before the [try], reads
    an object or a list; it then raises before it touches the page.  On
    every other record it ends in a verdict, whatever the browser raises
    while the setting is resolved, read, written or verified. *)
Theorem apply_setting_raises_on_null_selectors_only page scope setting
  desired timeout_ms s :
  if has_null_selectors setting
  then exists e,
         apply_setting page scope setting desired timeout_ms s
         = (Raised e, s)
  else exists v s',
         apply_setting page scope setting desired timeout_ms s = (Ok v, s').
Proof.
  pose proof (candidates_of_raises setting) as Hc.
  destruct (has_null_selectors setting);
    unfold apply_setting; unfold bind at 1;
    destruct (resolve_field_locator_cases page scope setting s)
      as [(e & Ec & ->)|(candidates & [f u] & Ec & ->)];
    rewrite Ec in Hc; try (by destruct Hc); [by exists e|].
  destruct f as [locator|]; [|by eexists _, _].
  cbv zeta.
  unfold guarded, perform, input_value, is_checked, count, query, catch, ret.
  split_verdict; by eexists _, _.
Qed.

Ltac split_verdict_in H :=
  unfold apply_setting in H; unfold bind at 1 in H;
  match type of H with
  | context [resolve_field_locator ?p ?sc ?st ?s0] =>
      let f := fresh "f" in
      let u := fresh "u" in
      let E := fresh "E" in
      destruct (resolve_field_locator_cases p sc st s0)
        as [(?e & _ & E)|(?candidates & [f u] & _ & E)];
      rewrite E in H; clear E; [discriminate H|]; destruct f as [?locator|]
  end;
  cbv zeta in H;
  unfold guarded, perform, input_value, is_checked, count, query, catch, ret
    in H;
  repeat match type of H with
         | context [b_perform ?a ?w] => destruct (b_perform a w) eqn:?
         | context [if ?c then _ else _] => destruct c eqn:?
         | context [match ?x with (_, _) => _ end] => destruct x eqn:?
         | context [match ?x with Ok _ => _ | Raised _ => _ end] =>
             destruct x eqn:?
         end;
  repeat match goal with
         | H' : context [match ?x with Ok _ => _ | Raised _ => _ end] |- _ =>
             destruct x eqn:?
         end;
  try discriminate;
  try match type of H with
      | verify_and_return ?l ?st ?d ?u ?c ?s0 = _ =>
          let b := fresh "b" in
          let Hb := fresh "Hb" in
          let E := fresh "E" in
          destruct (verify_and_return_spec l st d u c s0) as (b & Hb & E);
          rewrite E in H; clear E
      end.

(** X2. A verdict with [changed] set means an action was performed on the
    page.  When such a verdict is a failure, its note is
    [verification-failed] and the type is neither [radio_group] nor
    [dropdown_aria]: every other failure reports no change, and a clicked
    radio group or ARIA dropdown is never reported failed. *)
Theorem changed_verdicts page scope setting desired timeout_ms s ok note s' :
  apply_setting page scope setting desired timeout_ms s
  = (Ok (ok, true, note), s') ->
  (exists a acts, log s' = log s ++ a :: acts)
  /\ (ok = false ->
      note = "verification-failed"
      /\ type_in (s_type setting) ["radio_group"; "dropdown_aria"] = false).
Proof.
  intros H. split_verdict_in H;
    destruct b, (type_in (s_type setting) ["radio_group"; "dropdown_aria"])
      eqn:?; simplify_eq/=;
    (split; [rewrite <- ?app_assoc; by eexists _, _ | by intros]).
Qed.

(** X3. A verdict that is a success without a change leaves the page and
    the action log exactly as they were: what is reported [skipped] was
    only read. *)
Theorem unchanged_success_touches_nothing page scope setting desired
  timeout_ms s note s' :
  apply_setting page scope setting desired timeout_ms s
  = (Ok (true, false, note), s') ->
  s' = s.
Proof.
  intros H. split_verdict_in H;
    try (destruct b, (type_in (s_type setting)
                        ["radio_group"; "dropdown_aria"]) eqn:?);
    by simplify_eq/=.
Qed.

(** Evaluates the type tests once the type is known. *)
Ltac eval_type_tests :=
  repeat match goal with
         | |- context [type_in (Some ?x) ?l] =>
             let b := eval vm_compute in (type_in (Some x) l) in
             change (type_in (Some x) l) with b
         | |- context [type_is (Some ?x) ?y] =>
             let b := eval vm_compute in (type_is (Some x) y) in
             change (type_is (Some x) y) with b
         end.

Ltac know_type H :=
  let x := fresh "x" in
  let E := fresh "E" in
  let Hx := fresh "Hx" in
  destruct (type_in_cases _ _ H) as (x & E & Hx);
  simpl in Hx; clear H;
  repeat (destruct Hx as [<-|Hx]; [|try (by destruct Hx)]);
  rewrite ?E in *.

(** X4. When the page already shows the desired value (the text or the
    selected value normalizes to it, the box is checked as desired, the
    radio of the resolved label is checked), [apply_setting] performs no
    action and answers success without change, with the provenance of the
    locator as its note. *)
Theorem already_set_is_skipped page scope setting desired timeout_ms s
  locator used :
  resolve_field_locator page scope setting s = (Ok (Some locator, used), s) ->
  already_set (live s) scope locator setting desired ->
  apply_setting page scope setting desired timeout_ms s
  = (Ok (true, false, used), s).
Proof.
  intros Hr Hset. unfold apply_setting. unfold bind at 1. rewrite Hr.
  cbv zeta. unfold verify_and_return, verify_locator_value.
  destruct Hset as [[Ht (cur & Hc & E)]|[[Ht Hc]|[[Ht [Hc [n Hn]]]|
                    [Ht (cur & Hc & E)]]]];
    [know_type Ht..| |]; try unfold type_is in Ht; try know_type Ht;
    eval_type_tests; cbv iota;
    unfold guarded, catch, bind, ret, input_value, is_checked, count, query;
    repeat (progress (cbv beta iota;
                      rewrite ?Hn, ?Hc, ?E, ?String.eqb_refl, ?Bool.eqb_reflx;
                      cbn [negb andb orb Nat.eqb]));
    reflexivity.
Qed.

Lemma resolve_candidates_none scope candidates :
  forall index s,
    Forall (passed_over (live s) scope) candidates ->
    resolve_candidates scope index candidates s = (Ok (None, "none"), s).
Proof.
  induction candidates as [|c rest IH]; intros index s H; [done|].
  apply Forall_cons in H as [Hc H].
  rewrite resolve_candidates_passes by done. by apply IH.
Qed.

(** X5. When no candidate of the setting matches exactly one element,
    the resolution answers no locator with provenance [none], and
    [apply_setting] fails with [no-unique-selector] without an action. *)
Theorem no_unique_selector page scope setting desired timeout_ms s
  candidates :
  candidates_of setting = Ok candidates ->
  Forall (passed_over (live s) scope) candidates ->
  resolve_field_locator page scope setting s = (Ok (None, "none"), s)
  /\ apply_setting page scope setting desired timeout_ms s
     = (Ok (false, false, "no-unique-selector"), s).
Proof.
  intros Hc H.
  assert (E : resolve_field_locator page scope setting s
              = (Ok (None, "none"), s)).
  { unfold resolve_field_locator, bind, lift. rewrite Hc.
    by apply resolve_candidates_none. }
  split; [done|]. unfold apply_setting, bind. by rewrite E.
Qed.

Lemma resolve_candidates_found scope candidates :
  forall index s first used,
    resolve_candidates scope index candidates s = (Ok (Some first, used), s) ->
    exists pre c post l,
      candidates = pre ++ c :: post
      /\ Forall (passed_over (live s) scope) pre
      /\ candidate_count (live s) scope c = Some (l, 1)
      /\ first = First l /\ used = summary_of (index + length pre).
Proof.
  induction candidates as [|c rest IH]; intros index s first used H.
  { simpl in H. by simplify_eq. }
  destruct (candidate_count (live s) scope c) as [[l n]|] eqn:Ec.
  - destruct (decide (n = 1)) as [->|Hn].
    + pose proof (resolve_candidates_first_unique scope [] c rest l index s
                    (Forall_nil_2 _) Ec) as E1.
      cbn [app length] in E1. rewrite E1 in H. simplify_eq.
      by exists [], c, rest, l.
    + assert (Hp : passed_over (live s) scope c).
      { unfold passed_over. rewrite Ec. simpl. congruence. }
      rewrite resolve_candidates_passes in H by done.
      apply IH in H as (pre & c' & post & l' & -> & Hpre & Hc & -> & ->).
      exists (c :: pre), c', post, l'. cbn [app length].
      split; [done|]. split; [by constructor|]. split; [done|].
      split; [done|]. f_equal. lia.
  - assert (Hp : passed_over (live s) scope c).
    { unfold passed_over. by rewrite Ec. }
    rewrite resolve_candidates_passes in H by done.
    apply IH in H as (pre & c' & post & l' & -> & Hpre & Hc & -> & ->).
    exists (c :: pre), c', post, l'. cbn [app length].
    split; [done|]. split; [by constructor|]. split; [done|].
    split; [done|]. f_equal. lia.
Qed.

(** X6. A locator the resolution returns is the first element of a
    candidate that matches exactly one element; every candidate before it
    was passed over, and the provenance names its place in the order
    primary, then fallbacks. *)
Theorem resolved_locator_is_unique page scope setting s first used :
  resolve_field_locator page scope setting s = (Ok (Some first, used), s) ->
  exists pre c post l,
    candidates_of setting = Ok (pre ++ c :: post)
    /\ Forall (passed_over (live s) scope) pre
    /\ candidate_count (live s) scope c = Some (l, 1)
    /\ first = First l /\ used = summary_of (length pre).
Proof.
  unfold resolve_field_locator, bind, lift. intros H.
  destruct (candidates_of setting) as [candidates|e]; [|done].
  apply resolve_candidates_found in H
    as (pre & c & post & l & -> & H). by exists pre, c, post, l.
Qed.

Lemma type_in_sub t l l' :
  type_in t l = false -> (forall x, In x l' -> In x l) -> type_in t l' = false.
Proof.
  destruct t as [x|]; [|done]. unfold type_in. intros H Hsub.
  destruct (str_in x l') eqn:E; [|done].
  apply str_in_spec, Hsub, str_in_spec in E. congruence.
Qed.

(** X7. A setting whose type is none of the ten the engine knows (or
    that has no type) fails with [unsupported-type:] followed by the type
    ([None] when there is none), without an action on the page. *)
Theorem unsupported_type page scope setting desired timeout_ms s locator
  used :
  resolve_field_locator page scope setting s = (Ok (Some locator, used), s) ->
  type_in (s_type setting) known_types = false ->
  apply_setting page scope setting desired timeout_ms s
  = (Ok (false, false, "unsupported-type:" +:+ fmt (s_type setting)), s).
Proof.
  intros Hr Ht. unfold apply_setting, bind. rewrite Hr. unfold type_is.
  rewrite !(type_in_sub _ _ _ Ht); [done|simpl; tauto..].
Qed.

End Verdicts.

(** ** Containers *)

Section Orchestration.
Context {B : Browser}.




Section Logs.
Variable P : action -> Prop.







End Logs.





















End Orchestration.

(** ** Reports *)

Section Reports.
Context {B : Browser}.

Lemma count_status_cons status o outs :
  count_status status (o :: outs)
  = (if decide (o_status o = status) then 1 else 0) + count_status status outs.
Proof.
  unfold count_status. rewrite filter_cons. by destruct (decide _).
Qed.

Lemma count_status_app status outs outs' :
  count_status status (outs ++ outs')
  = count_status status outs + count_status status outs'.
Proof. unfold count_status. by rewrite filter_app, length_app. Qed.

Lemma status_of_applied ok changed :
  status_of ok changed = "applied" <-> ok && changed = true.
Proof. by destruct ok, changed. Qed.

Lemma known_status_of container_key setting desired v :
  known_status (applied_outcome container_key setting desired v).
Proof.
  destruct v as [[[] []] note]; unfold known_status; simpl; auto.
Qed.

(** The loop over a container's settings counts the outcomes it reports
    [applied]. *)
Lemma apply_all_counts page scope k timeout_ms idxs :
  forall outs n s outs' n' s',
    apply_all page scope k idxs timeout_ms outs n s = (Ok (outs', n'), s') ->
    exists new,
      outs' = outs ++ new
      /\ Forall known_status new
      /\ Forall (fun o => o_containerKey o = k) new
      /\ n' = n + count_status "applied" new.
Proof.
  induction idxs as [|i idxs IH]; intros outs n s outs' n' s' H.
  - simpl in H. injection H as <- <- <-. exists [].
    rewrite app_nil_r. repeat split; try done; unfold count_status; simpl; lia.
  - cbn [apply_all] in H. unfold bind at 1 in H. unfold get_records at 1 in H.
    destruct (records s !! i) as [stored|]; [|by eapply IH].
    destruct (s_desired stored) as [desired|]; [|done].
    unfold bind at 1 in H. unfold set_records at 1 in H.
    apply bind_Ok_inv in H as (v & s2 & _ & H).
    destruct v as [[ok changed] note].
    apply IH in H as (new & -> & Hs & Hk & ->).
    eexists (_ :: new). rewrite <- app_assoc. split; [done|].
    split; [constructor; [apply known_status_of | done]|].
    split; [by constructor|].
    rewrite count_status_cons. cbn [applied_outcome o_status].
    destruct (decide (status_of ok changed = "applied")) as [E|E].
    + apply status_of_applied in E. rewrite E. lia.
    + destruct (ok && changed) eqn:E'; [|lia].
      by apply status_of_applied in E'.
Qed.

Lemma missing_outcomes_counts rs k idxs :
  Forall known_status (missing_outcomes rs k idxs)
  /\ Forall (fun o => o_containerKey o = k) (missing_outcomes rs k idxs).
Proof.
  unfold missing_outcomes.
  induction idxs as [|i idxs [IH1 IH2]]; [by split|].
  cbn [omap list_omap]. destruct (rs !! i); simpl; [|by split].
  split; constructor; try done. unfold known_status. simpl. auto.
Qed.

Lemma process_group_counts page by_key timeout_ms k idxs outs saved s outs'
  saved' s' :
  process_group page by_key timeout_ms (k, idxs) (outs, saved) s
  = (Ok (outs', saved'), s') ->
  exists new,
    outs' = outs ++ new
    /\ Forall known_status new
    /\ Forall (fun o => o_containerKey o = k) new
    /\ (saved' = saved
        \/ saved' = saved ++ [k] /\ 0 < count_status "applied" new).
Proof.
  intros H. unfold process_group in H.
  destruct (by_key !! k) as [c|].
  - apply bind_Ok_inv in H as (scope & s1 & _ & H).
    apply bind_Ok_inv in H as ([outs1 n1] & s2 & Ha & H).
    apply bind_Ok_inv in H as (sv & s3 & Hsv & H).
    apply bind_Ok_inv in H as (u & s4 & _ & H).
    injection H as <- <- <-.
    apply apply_all_counts in Ha as (new & -> & Hs & Hk & ->).
    exists new. split; [done|]. split; [done|]. split; [done|].
    destruct sv; [right|by left]. split; [done|].
    unfold click_save_if_needed in Hsv.
    destruct (Nat.ltb_spec 0 (0 + count_status "applied" new)); [lia|].
    simpl in Hsv. discriminate.
  - unfold bind, get_records, ret in H. injection H as <- <- <-.
    destruct (missing_outcomes_counts (records s) k idxs).
    eexists. split; [done|]. split; [done|]. split; [done|]. by left.
Qed.

(** Every outcome of the main loop has one of the three statuses, and a
    container is recorded as saved only with an [applied] outcome. *)
Lemma main_loop_counts page by_key timeout_ms groups :
  forall outs saved s outs' saved' s',
    main_loop page by_key timeout_ms groups (outs, saved) s
    = (Ok (outs', saved'), s') ->
    exists new saved_new,
      outs' = outs ++ new /\ saved' = saved ++ saved_new
      /\ Forall known_status new
      /\ forall k, k ∈ saved_new ->
           exists o, o ∈ new /\ o_containerKey o = k
                     /\ o_status o = "applied".
Proof.
  induction groups as [|[k idxs] rest IH];
    intros outs saved s outs' saved' s' H.
  - simpl in H. injection H as <- <- <-. exists [], [].
    rewrite !app_nil_r. repeat split; try done. by intros k ?%elem_of_nil.
  - cbn [main_loop] in H.
    apply bind_Ok_inv in H as ([outs1 saved1] & s1 & Hg & H).
    apply process_group_counts in Hg as (new1 & -> & Hs1 & Hk1 & Hsv).
    apply IH in H as (new & saved_new & -> & -> & Hs & Happ).
    assert (Hfrom : forall k', k' ∈ saved_new ->
              exists o, o ∈ new1 ++ new /\ o_containerKey o = k'
                        /\ o_status o = "applied").
    { intros k' Hk'. destruct (Happ k' Hk') as (o & Ho & H).
      exists o. split; [apply elem_of_app; by right | done]. }
    destruct Hsv as [->|[-> Hpos]].
    + exists (new1 ++ new), saved_new. rewrite <- app_assoc.
      split; [done|]. split; [done|]. split; [by apply Forall_app|]. done.
    + exists (new1 ++ new), (k :: saved_new). rewrite <- !app_assoc.
      split; [done|]. split; [done|]. split; [by apply Forall_app|].
      intros k' [->|Hk']%elem_of_cons; [|by apply Hfrom].
      unfold count_status in Hpos.
      destruct (filter (fun o => o_status o = "applied") new1)
        as [|o l] eqn:Ef; [simpl in Hpos; lia|].
      assert (Ho : o ∈ filter (fun o => o_status o = "applied") new1).
      { rewrite Ef. apply elem_of_cons. by left. }
      apply list_elem_of_filter in Ho as [Hst Ho]. exists o.
      split; [apply elem_of_app; by left|]. split; [|done].
      by apply (proj1 (Forall_forall _ _) Hk1).
Qed.

Lemma known_status_total outs :
  Forall known_status outs ->
  length outs
  = count_status "applied" outs + count_status "skipped" outs
    + count_status "failed" outs.
Proof.
  induction 1 as [|o outs Ho _ IH]; [done|].
  rewrite !count_status_cons. simpl length. rewrite IH.
  destruct Ho as [E|[E|E]]; rewrite E; simpl; lia.
Qed.

(** Grouping takes one pair for each value whose key names a setting. *)
Lemma group_values_length by_key values :
  forall store groups,
    (forall key i, by_key !! key = Some i -> i < length store) ->
    length (flat_groups (group_values values by_key store groups).2)
    = length (flat_groups groups) + length (filter (matched by_key) values).
Proof.
  induction values as [|[key d] rest IH]; intros store groups Hv.
  - simpl. lia.
  - rewrite filter_cons. unfold matched at 1. cbn [fst group_values].
    destruct (decide (is_Some (by_key !! key))) as [[i Ek]|Hn].
    + destruct (lookup_lt_is_Some_2 store i (Hv key i Ek)) as [setting Es].
      rewrite Ek, Es, IH.
      * rewrite flat_groups_append, length_app. simpl. lia.
      * intros key' i' H'. rewrite length_insert. eauto.
    + apply eq_None_not_Some in Hn. rewrite Hn. by apply IH.
Qed.

Lemma group_values_matched by_key values :
  forall store groups,
    group_values (filter (matched by_key) values) by_key store groups
    = group_values values by_key store groups.
Proof.
  induction values as [|[key d] rest IH]; intros store groups; [done|].
  rewrite filter_cons. unfold matched at 1. cbn [fst].
  destruct (decide (is_Some (by_key !! key))) as [[i Ek]|Hn].
  - cbn [group_values]. rewrite Ek. destruct (store !! i); apply IH.
  - apply eq_None_not_Some in Hn. cbn [group_values]. rewrite Hn. apply IH.
Qed.

Lemma run_Ok_inv w schema values timeout_ms report s' :
  run w schema values timeout_ms = (Ok report, s') ->
  exists outs saved,
    report = report_of outs saved
    /\ main_loop Page (containers_by_key (containers schema)) timeout_ms
         (groups_of schema values) ([], [])
         {| live := w; log := [];
            records := (group_values values
                          (settings_by_key (records_of schema))
                          (records_of schema) []).1 |}
       = (Ok (outs, saved), s').
Proof.
  rewrite run_unfold. cbv zeta. unfold groups_of.
  destruct (main_loop _ _ _ _ _ _) as [[[outs saved]|e] s1]; [|done].
  intros H. injection H as <- <-. by exists outs, saved.
Qed.

(** X11. The report of a completed run has one outcome for each desired
    value whose key names a setting, each with status [applied],
    [skipped] or [failed], so the three counts add up to the total; the
    exit code is 0 exactly when no outcome failed. *)
Theorem report_counts_add_up w schema values timeout_ms report s' :
  run w schema values timeout_ms = (Ok report, s') ->
  total (counts report)
  = length (filter (matched (settings_by_key (records_of schema))) values)
  /\ total (counts report) = length (outcomes report)
  /\ Forall known_status (outcomes report)
  /\ total (counts report)
     = applied (counts report) + skipped (counts report)
       + failed (counts report)
  /\ (exit_code report = 0%Z <-> failed (counts report) = 0).
Proof.
  intros (outs & saved & -> & Hloop)%run_Ok_inv.
  cbn [report_of counts total applied skipped failed outcomes exit_code].
  assert (Hlen : length outs
                 = length (filter (matched (settings_by_key
                                              (records_of schema))) values)).
  { destruct (group_values_spec (settings_by_key (records_of schema)) values
                (records_of schema) []) as [Hsame _].
    pose proof Hloop as Hl.
    apply (main_loop_outcomes (records_of schema)) in Hl
      as (_ & _ & new & E & Hnew); [|done|apply groups_of_valid].
    simpl in E. subst new. apply Forall2_length in Hnew. rewrite <- Hnew.
    unfold groups_of. rewrite group_values_length; [done|].
    intros key i (item & Hi & _)%settings_by_key_sound.
    by eapply lookup_lt_Some. }
  apply main_loop_counts in Hloop as (new & saved_new & E & _ & Hs & _).
  simpl in E. subst new.
  split; [done|]. split; [done|]. split; [done|].
  split; [by apply known_status_total|].
  destruct (count_status "failed" outs); simpl; split; done.
Qed.

(** X12. Desired values whose key names no setting are ignored: the run
    is the run on the values that name one.  When none does, the report
    is empty, the exit code 0, and neither the page nor the records are
    touched. *)
Theorem unmatched_values_are_ignored w schema values timeout_ms :
  run w schema values timeout_ms
  = run w schema
      (filter (matched (settings_by_key (records_of schema))) values)
      timeout_ms
  /\ (Forall (fun kv => settings_by_key (records_of schema) !! kv.1 = None)
        values ->
      run w schema values timeout_ms
      = (Ok (report_of [] []),
         {| live := w; log := []; records := records_of schema |})).
Proof.
  assert (E : run w schema values timeout_ms
              = run w schema
                  (filter (matched (settings_by_key (records_of schema)))
                     values) timeout_ms).
  { rewrite !run_unfold. cbv zeta. by rewrite group_values_matched. }
  split; [done|]. intros Hnone. rewrite E.
  assert (Hf : filter (matched (settings_by_key (records_of schema))) values
               = []).
  { apply StabilityProps.filter_none. eapply Forall_impl; [exact Hnone|].
    intros kv Hkv [i Hi]. congruence. }
  rewrite Hf. reflexivity.
Qed.

(** X13. A container is listed in [savedContainers] only when one of its
    settings has an outcome with status [applied]. *)
Theorem saved_container_has_applied_outcome w schema values timeout_ms
  report s' :
  run w schema values timeout_ms = (Ok report, s') ->
  forall k, k ∈ savedContainers report ->
    exists o, o ∈ outcomes report /\ o_containerKey o = k
              /\ o_status o = "applied".
Proof.
  intros (outs & saved & -> & Hloop)%run_Ok_inv k Hk.
  apply main_loop_counts in Hloop as (new & saved_new & E & E' & _ & H).
  simpl in *. subst. by apply H.
Qed.

End Reports.

(** ** Values *)

Section Values.

Lemma lstrip_clean s : starts_clean (lstrip s).
Proof.
  induction s as [|c r IH]; simpl; [done|].
  by destruct (is_space c) eqn:E.
Qed.

Lemma lstrip_of_clean t : starts_clean t -> lstrip t = t.
Proof. destruct t as [|c r]; simpl; [done|]. by intros ->. Qed.

Lemma rstrip_clean t : starts_clean t -> starts_clean (rstrip t).
Proof.
  destruct t as [|c r]; simpl; [done|]. intros Hc.
  destruct (rstrip r); [by rewrite Hc | done].
Qed.

Lemma rstrip_idem t : rstrip (rstrip t) = rstrip t.
Proof.
  induction t as [|c r IH]; simpl; [done|].
  destruct (rstrip r) as [|d r'] eqn:E.
  - destruct (is_space c) eqn:Ec; simpl; [done|]. by rewrite Ec.
  - simpl in *. by rewrite IH.
Qed.

Lemma strip_idem s : strip (strip s) = strip s.
Proof.
  unfold strip.
  rewrite (lstrip_of_clean (rstrip (lstrip s)))
    by apply rstrip_clean, lstrip_clean.
  apply rstrip_idem.
Qed.

(** X14. Normalizing a string twice is normalizing it once: what
    [normalize_str] returns has no whitespace left to trim, so the
    comparisons of normalized values do not depend on how often a value
    went through it. *)
Theorem normalize_str_idempotent (value : pyval) :
  normalize_str (PStr (normalize_str value)) = normalize_str value
  /\ starts_clean (normalize_str value)
  /\ strip (normalize_str value) = normalize_str value.
Proof.
  assert (E : strip (normalize_str value) = normalize_str value).
  { destruct value; try apply strip_idem. reflexivity. }
  split; [exact E|]. split; [|exact E].
  destruct value; try (apply rstrip_clean, lstrip_clean). done.
Qed.

(** X15. [resolve_option_label] is decided by the first option whose
    normalized value or label equals the normalized desired text: when
    that option has the value and a label that is not blank, the answer
    is its label; in every other case, and without such an option, it is
    the desired text.  Options after the first such one are not looked
    at. *)
Theorem resolve_option_label_first_hit setting desired :
  let wanted := normalize_str desired in
  let found := resolve_option_label setting desired in
  (Forall (fun o => ~ hits wanted o) (s_options setting) -> found = wanted)
  /\ (forall pre o post,
        s_options setting = pre ++ o :: post ->
        Forall (fun o => ~ hits wanted o) pre ->
        hits wanted o ->
        found = if decide (normalize_str (opt_value o) = wanted
                           /\ normalize_str (opt_label o) <> "")
                then normalize_str (opt_label o)
                else wanted).
Proof.
  intros wanted found. unfold found, resolve_option_label. fold wanted.
  split.
  - induction 1 as [|o rest Ho _ IH]; [done|].
    cbn [resolve_option_label_in]. unfold hits in Ho.
    destruct (String.eqb_spec (normalize_str (opt_value o)) wanted);
      [tauto|].
    destruct (String.eqb_spec (normalize_str (opt_label o)) wanted);
      [tauto|done].
  - intros pre o post -> Hpre Ho.
    induction Hpre as [|o' rest Ho' _ IH].
    + cbn [app resolve_option_label_in]. unfold hits in Ho.
      destruct (String.eqb_spec (normalize_str (opt_value o)) wanted)
        as [Ev|Ev].
      * destruct (String.eqb_spec (normalize_str (opt_label o)) "")
          as [El|El].
        -- rewrite decide_False; [done|tauto].
        -- by rewrite decide_True.
      * rewrite decide_False by tauto.
        destruct (String.eqb_spec (normalize_str (opt_label o)) wanted);
          [done|tauto].
    + cbn [app resolve_option_label_in]. unfold hits in Ho'.
      destruct (String.eqb_spec (normalize_str (opt_value o')) wanted);
        [tauto|].
      destruct (String.eqb_spec (normalize_str (opt_label o')) wanted);
        [tauto|done].
Qed.

End Values.

Section GroupOrder.






End GroupOrder.

Section Payload.
Import LoadValues.

(** X17. [load_values] returns a mapping exactly when the payload is an
    object: the object under its [values] key when that is an object
    (the keys beside it are dropped), else the payload itself, with a
    [values] key that is not an object kept as an entry.  Any other
    payload raises. *)
Theorem load_values_accepts_objects path raw :
  (forall mapping,
     load_values path raw = inl mapping <->
     exists items,
       raw = JObj items
       /\ (get "values" items = Some (JObj mapping)
           \/ mapping = items
              /\ forall v, get "values" items <> Some (JObj v)))
  /\ ((forall items, raw <> JObj items) ->
      exists e, load_values path raw = inr e).
Proof.
  split.
  - intros mapping. split.
    + destruct raw; simpl; try discriminate;
        try (destruct (contains _ _); discriminate);
        try (destruct (existsb _ _); discriminate).
      intros H. exists items. split; [done|].
      destruct (get "values" items) as [[]|] eqn:E; simplify_eq;
        try (right; split; [done|]; congruence).
      by left.
    + intros (items & -> & [E|[-> Hn]]); simpl.
      * by rewrite E.
      * destruct (get "values" items) as [[]|] eqn:E; try done.
        by destruct (Hn items0).
  - intros Hn. destruct raw; simpl; eauto.
    + destruct (contains _ _); eauto.
    + destruct (existsb _ _); eauto.
    + by destruct (Hn items).
Qed.

End Payload.

Section MoreExamples.
Import Demo.

(** A textbox whose [selectors] is [null], without a control: applying
    it raises, the session untouched. *)
Lemma apply_setting_raises_on_null_selectors_only_witness :
  let nulled :=
    {| s_field_id := None; s_settingKey := Some "s1";
       s_containerKey := "c1"; s_type := Some "textbox";
       s_selectors := Null; s_control := None; s_options := [];
       s_desired := None |} in
  exists e,
    apply_setting (B := demo_browser) Page Page nulled (PStr "x") 15000
      (start [nulled])
    = (Raised e, start [nulled]).
Proof.
  intros nulled.
  exact (apply_setting_raises_on_null_selectors_only (B := demo_browser)
           Page Page nulled (PStr "x") 15000 (start [nulled])).
Defined.

(** Two options, the first with the label [x], the second with the value
    [x] and the label [Y]: asked for [x], the first one decides. *)
Lemma resolve_option_label_first_hit_witness :
  let by_label := {| opt_value := PStr "a"; opt_label := PStr "x" |} in
  let by_value := {| opt_value := PStr "x"; opt_label := PStr "Y" |} in
  let setting :=
    {| s_field_id := None; s_settingKey := Some "s1";
       s_containerKey := "c1"; s_type := Some "radio_group";
       s_selectors := Absent; s_control := None;
       s_options := [by_label; by_value]; s_desired := None |} in
  resolve_option_label setting (PStr "x") = "x".
Proof.
  intros by_label by_value setting.
  destruct (resolve_option_label_first_hit setting (PStr "x")) as [_ H].
  rewrite (H [] by_label [by_value]); [reflexivity..| |].
  - constructor.
  - right. reflexivity.
Defined.

(** The write to the reverting field of the example page: one [Fill] is
    logged and the verdict is a verification failure. *)
Lemma changed_verdicts_witness :
  (exists a acts,
     log after_fill_locked = log (start [locked]) ++ a :: acts)
  /\ (false = false ->
      "verification-failed" = "verification-failed"
      /\ type_in (s_type locked) ["radio_group"; "dropdown_aria"] = false).
Proof.
  apply (changed_verdicts (B := demo_browser) Page Page locked (PStr "x")
           15000 (start [locked]) false "verification-failed"
           after_fill_locked).
  vm_compute. reflexivity.
Defined.

(** A [table] setting of the example page is only resolved. *)
Lemma unchanged_success_touches_nothing_witness :
  (apply_setting (B := demo_browser) Page Page grid (PStr "x") 15000
     (start [grid])).2
  = start [grid].
Proof.
  apply (unchanged_success_touches_nothing (B := demo_browser) Page Page
           grid (PStr "x") 15000 (start [grid]) "not-writable").
  vm_compute. reflexivity.
Defined.

(** The name field of the example page shows [old]; asking for it with
    blanks around is a success without a change. *)
Lemma already_set_is_skipped_witness :
  apply_setting (B := demo_browser) Page Page name (PStr " old ") 15000
    (start [name])
  = (Ok (true, false, "primary"), start [name]).
Proof.
  apply (already_set_is_skipped (B := demo_browser) Page Page name
           (PStr " old ") 15000 (start [name]) (First (Css Page "#name"))).
  - reflexivity.
  - left. split; [reflexivity|]. exists "old". split; reflexivity.
Defined.

(** A textbox whose only selector matches the two rows of the example
    page. *)
Lemma no_unique_selector_witness :
  let rows := field "s1" "c1" "textbox" (one ".row") in
  resolve_field_locator (B := demo_browser) Page Page rows (start [rows])
  = (Ok (None, "none"), start [rows])
  /\ apply_setting Page Page rows (PStr "x") 15000 (start [rows])
     = (Ok (false, false, "no-unique-selector"), start [rows]).
Proof.
  intros rows.
  apply (no_unique_selector (B := demo_browser) Page Page rows (PStr "x")
           15000 (start [rows]) [Some (css ".row")]); [reflexivity|].
  repeat constructor. vm_compute. discriminate.
Defined.

(** On the example page the fallback [#name] is taken after the primary
    selector, which matches two rows, was passed over. *)
Lemma resolved_locator_is_unique_witness :
  exists pre c post l,
    candidates_of two_rows_then_name = Ok (pre ++ c :: post)
    /\ Forall (passed_over (B := demo_browser) demo_page Page) pre
    /\ candidate_count (B := demo_browser) demo_page Page c = Some (l, 1)
    /\ First (Css Page "#name") = First l
    /\ "fallback[0]" = summary_of (length pre).
Proof.
  apply (resolved_locator_is_unique (B := demo_browser) Page Page
           two_rows_then_name (start []) (First (Css Page "#name"))
           "fallback[0]").
  reflexivity.
Defined.

(** A setting of type [slider] on the name field of the example page. *)
Lemma unsupported_type_witness :
  let slider := field "s1" "c1" "slider" (one "#name") in
  apply_setting (B := demo_browser) Page Page slider (PStr "x") 15000
    (start [slider])
  = (Ok (false, false, "unsupported-type:slider"), start [slider]).
Proof.
  intros slider.
  apply (unsupported_type (B := demo_browser) Page Page slider (PStr "x")
           15000 (start [slider]) (First (Css Page "#name")) "primary");
    reflexivity.
Defined.

(** The run with a value for a missing container, a value that names no
    setting and a value the page already shows. *)
Lemma report_counts_add_up_witness :
  let schema := demo_schema [orphan; two_rows_then_name] in
  exists report s',
    run (B := demo_browser) demo_page schema mixed_values 15000
    = (Ok report, s')
    /\ total (counts report)
       = length (filter (matched (settings_by_key (records_of schema)))
                   mixed_values)
    /\ total (counts report) = length (outcomes report)
    /\ Forall known_status (outcomes report)
    /\ total (counts report)
       = applied (counts report) + skipped (counts report)
         + failed (counts report)
    /\ (exit_code report = 0%Z <-> failed (counts report) = 0).
Proof.
  intros schema. eexists _, _. split; [vm_compute; reflexivity|].
  eapply (report_counts_add_up (B := demo_browser) demo_page schema
            mixed_values 15000).
  vm_compute. reflexivity.
Defined.

(** The run that writes the name field and saves its container. *)
Lemma saved_container_has_applied_outcome_witness :
  exists report s',
    run (B := demo_browser) demo_page (demo_schema [name])
      [("s1", PStr "x")] 15000 = (Ok report, s')
    /\ savedContainers report = ["c1"]
    /\ forall k, k ∈ savedContainers report ->
         exists o, o ∈ outcomes report /\ o_containerKey o = k
                   /\ o_status o = "applied".
Proof.
  eexists _, _. split; [vm_compute; reflexivity|].
  split; [reflexivity|].
  eapply (saved_container_has_applied_outcome (B := demo_browser) demo_page
            (demo_schema [name]) [("s1", PStr "x")] 15000).
  vm_compute. reflexivity.
Defined.

End MoreExamples.

End ApplyMoreProps.

(* ===================================================================== *)
(** * More properties of the schema drift detector *)
(* ===================================================================== *)

Module StabilityMoreProps.
Import StabilityCheck StabilityNotions StabilityProps.

Lemma fmap_flat_map {A C D} (f : C -> D) (g : A -> list C) l :
  f <$> flat_map g l = flat_map (fun x => f <$> g x) l.
Proof.
  induction l as [|x l IH]; [done|]. simpl. by rewrite fmap_app, IH.
Qed.

Lemma flat_map_pointwise {A C} (f g : A -> list C) l :
  (forall x, f x = g x) -> flat_map f l = flat_map g l.
Proof. intros H. induction l as [|x l IH]; simpl; [done|]. by rewrite H, IH. Qed.

Lemma nonempty_fmap {A C} (f : A -> C) l : nonempty (f <$> l) = nonempty l.
Proof. by destruct l. Qed.

Lemma changed_labels_or_types_mirror (m1 m2 : gmap string Setting) :
  changed_labels_or_types m2 m1
  = mirror_changed <$> changed_labels_or_types m1 m2.
Proof.
  unfold changed_labels_or_types.
  rewrite fmap_flat_map, (comm_L (∩) (dom m2)).
  apply flat_map_pointwise. intros key.
  destruct (m1 !! key) as [x|], (m2 !! key) as [y|]; try done.
  rewrite (String.eqb_sym (setting_label y)), (String.eqb_sym (setting_type y)).
  by destruct (_ || _).
Qed.

Lemma field_id_drift_mirror (m1 m2 : gmap string string) :
  field_id_drift m2 m1 = mirror_drift <$> field_id_drift m1 m2.
Proof.
  unfold field_id_drift. rewrite fmap_flat_map, (comm_L (∩) (dom m2)).
  apply flat_map_pointwise. intros sig.
  destruct (m1 !! sig) as [a|], (m2 !! sig) as [b|]; try done.
  rewrite (String.eqb_sym b). by destruct (negb _).
Qed.

Lemma radio_ordering_changed_mirror (m1 m2 : gmap string (list string)) :
  radio_ordering_changed m2 m1
  = mirror_reordered <$> radio_ordering_changed m1 m2.
Proof.
  unfold radio_ordering_changed.
  rewrite fmap_flat_map, (comm_L (∩) (dom m2)).
  apply flat_map_pointwise. intros sig.
  destruct (m1 !! sig) as [a|], (m2 !! sig) as [b|]; try done.
  rewrite (bool_decide_ext (b = a) (a = b)) by (split; congruence).
  rewrite (bool_decide_ext (sorted b = sorted a) (sorted a = sorted b))
    by (split; congruence).
  by repeat case_bool_decide.
Qed.

(** X18. Exchanging the two snapshots mirrors the diff: added and removed
    change places, every changed, drifted or reordered entry has its two
    sides exchanged, the two missing-options lists change places; the
    drift verdict is the same. *)
Theorem compare_is_mirrored (A B : Schema) :
  compare_schemas B A = mirror (compare_schemas A B)
  /\ has_drift (compare_schemas B A) = has_drift (compare_schemas A B).
Proof.
  assert (E : compare_schemas B A = mirror (compare_schemas A B)).
  { unfold compare_schemas, mirror. simpl.
    by rewrite changed_labels_or_types_mirror, field_id_drift_mirror,
      radio_ordering_changed_mirror. }
  split; [done|]. rewrite E. generalize (compare_schemas A B). intros d.
  unfold has_drift, mirror. simpl. rewrite !nonempty_fmap.
  by destruct (nonempty (containers_added d)),
    (nonempty (containers_removed d)), (nonempty (settings_added d)),
    (nonempty (settings_removed d)), (nonempty (labelOrTypeChanged d)),
    (nonempty (fieldIdDrift d)), (nonempty (dropdownsMissingOptionsA d)),
    (nonempty (dropdownsMissingOptionsB d)),
    (nonempty (radioOrderingChangedWithoutLabelChange d)).
Qed.

Lemma Sorted_sorted_set (X : gset string) : Sorted String.le (sorted_set X).
Proof. unfold sorted_set, sorted. apply Sorted_merge_sort. apply _. Qed.

Lemma settings_by_id_keys (items : list Setting) :
  "" ∉ dom (settings_by_id items).
Proof.
  intros (x & _ & Hk & E)%dict_of_dom. unfold has_id in Hk.
  rewrite E in Hk. discriminate.
Qed.

(** X19. The four key lists of a diff are in ascending order without
    repetition; no key is both added and removed; and the empty
    identifier, which stands for a setting without one, is never listed. *)
Theorem diff_keys_are_sorted (A B : Schema) :
  let diff := compare_schemas A B in
  (Sorted String.le (containers_added diff) /\ NoDup (containers_added diff))
  /\ (Sorted String.le (containers_removed diff)
      /\ NoDup (containers_removed diff))
  /\ (Sorted String.le (settings_added diff) /\ NoDup (settings_added diff))
  /\ (Sorted String.le (settings_removed diff)
      /\ NoDup (settings_removed diff))
  /\ (forall k, k ∈ containers_added diff -> k ∉ containers_removed diff)
  /\ (forall k, k ∈ settings_added diff -> k ∉ settings_removed diff)
  /\ ("" ∉ settings_added diff) /\ ("" ∉ settings_removed diff).
Proof.
  intros diff. unfold diff, compare_schemas. simpl.
  repeat split;
    try apply Sorted_sorted_set; try apply NoDup_sorted_set.
  - intros k. rewrite !elem_of_sorted_set. set_solver.
  - intros k. rewrite !elem_of_sorted_set. set_solver.
  - rewrite elem_of_sorted_set, elem_of_difference.
    intros [H _]. by apply settings_by_id_keys in H.
  - rewrite elem_of_sorted_set, elem_of_difference.
    intros [H _]. by apply settings_by_id_keys in H.
Qed.

Lemma dropdown_missing_options_filter (items : list Setting) :
  dropdown_missing_options items
  = (fun item => {| mo_fieldId := setting_id item;
                    mo_label := setting_label item;
                    mo_reason := "dropdown has empty options[]" |})
    <$> filter (fun item => lacks_options item = true) items.
Proof.
  unfold dropdown_missing_options.
  induction items as [|x items IH]; [done|].
  cbn [flat_map]. rewrite filter_cons, IH.
  case_decide as Hd; unfold lacks_options in Hd;
    destruct (str_in (setting_type x) _), (Nat.eqb _ _);
    simpl in *; done.
Qed.

Lemma dropdown_missing_options_nil (items : list Setting) :
  dropdown_missing_options items = [] <->
  Forall (fun item => lacks_options item = false) items.
Proof.
  rewrite dropdown_missing_options_filter. split.
  - intros Hf%fmap_nil_inv. apply Forall_forall. intros x Hx.
    destruct (lacks_options x) eqn:El; [|done].
    assert (x ∈ filter (fun item => lacks_options item = true) items)
      by (by apply list_elem_of_filter).
    rewrite Hf in H. by apply elem_of_nil in H.
  - intros Hf. rewrite filter_none; [done|].
    eapply Forall_impl; [exact Hf|]. simpl. congruence.
Qed.

(** X20. [dropdown_missing_options] lists, in the order of the snapshot,
    one entry for each [dropdown_native] or [dropdown_aria] setting whose
    options are empty, with its identifier and label, and nothing else;
    it is empty exactly when every dropdown has an option. *)
Theorem dropdown_missing_options_spec (items : list Setting) :
  dropdown_missing_options items
  = (fun item => {| mo_fieldId := setting_id item;
                    mo_label := setting_label item;
                    mo_reason := "dropdown has empty options[]" |})
    <$> filter (fun item => lacks_options item = true) items
  /\ (dropdown_missing_options items = [] <->
      Forall (fun item => lacks_options item = false) items).
Proof.
  split; [apply dropdown_missing_options_filter|].
  apply dropdown_missing_options_nil.
Qed.

Section LastWins.
Context {A V : Type} (keep : A -> bool) (key : A -> string) (val : A -> V).




End LastWins.


Lemma drift_entry_tag (m1 m2 : gmap string string) k e :
  e ∈ match m1 !! k, m2 !! k with
      | Some a, Some b =>
          if negb (String.eqb a b)
          then [ {| dr_signature := k; firstFieldId := a;
                    secondFieldId := b |} ]
          else []
      | _, _ => []
      end ->
  dr_signature e = k.
Proof.
  destruct (m1 !! k), (m2 !! k); try by intros ?%elem_of_nil.
  destruct (negb _); [|by intros ?%elem_of_nil].
  by intros ->%list_elem_of_singleton.
Qed.

Lemma in_both (m1 : gmap string string) (m2 : gmap string string) k a b :
  m1 !! k = Some a -> m2 !! k = Some b ->
  k ∈ sorted_set (dom m1 ∩ dom m2).
Proof.
  intros H1 H2. apply elem_of_sorted_set, elem_of_intersection.
  split; apply elem_of_dom; eauto.
Qed.

Lemma not_in_both {V1 V2} (m1 : gmap string V1) (m2 : gmap string V2) k :
  m1 !! k = None \/ m2 !! k = None ->
  k ∉ sorted_set (dom m1 ∩ dom m2).
Proof.
  intros H [[x H1]%elem_of_dom [y H2]%elem_of_dom]%elem_of_sorted_set
           %elem_of_intersection.
  destruct H; congruence.
Qed.

(** X22. For a signature, [fieldIdDrift] has one entry when both
    snapshots map it to an identifier and the two differ, with the two
    identifiers, and none otherwise. *)
Theorem field_id_drift_per_signature (A B : Schema) (sig : string) :
  let entries :=
    filter (fun d => dr_signature d = sig)
      (fieldIdDrift (compare_schemas A B)) in
  match signature_map (schema_settings A) !! sig,
        signature_map (schema_settings B) !! sig with
  | Some a, Some b =>
      entries = if decide (a = b) then []
                else [ {| dr_signature := sig; firstFieldId := a;
                          secondFieldId := b |} ]
  | _, _ => entries = []
  end.
Proof.
  intros entries. unfold entries, compare_schemas. cbn [fieldIdDrift].
  unfold field_id_drift.
  rewrite filter_flat_map_key;
    [|apply NoDup_sorted_set | intros k e; apply drift_entry_tag].
  destruct (signature_map (schema_settings A) !! sig) as [a|] eqn:Ea;
    [destruct (signature_map (schema_settings B) !! sig) as [b|] eqn:Eb|].
  - rewrite decide_True by (by eapply in_both).
    destruct (String.eqb_spec a b) as [->|Hne]; simpl.
    + by rewrite decide_True.
    + by rewrite decide_False.
  - rewrite decide_False; [done|]. apply not_in_both. by right.
  - rewrite decide_False; [done|]. apply not_in_both. by left.
Qed.

Lemma changed_entry_tag (m1 m2 : gmap string Setting) k e :
  e ∈ match m1 !! k, m2 !! k with
      | Some first_item, Some second_item =>
          if negb (String.eqb (setting_label first_item)
                     (setting_label second_item))
             || negb (String.eqb (setting_type first_item)
                        (setting_type second_item))
          then [ {| ch_settingKey := k;
                    ch_first := {| lt_label := setting_label first_item;
                                   lt_type := setting_type first_item |};
                    ch_second := {| lt_label := setting_label second_item;
                                    lt_type := setting_type second_item |} |} ]
          else []
      | _, _ => []
      end ->
  ch_settingKey e = k.
Proof.
  destruct (m1 !! k), (m2 !! k); try by intros ?%elem_of_nil.
  destruct (_ || _); [|by intros ?%elem_of_nil].
  by intros ->%list_elem_of_singleton.
Qed.

Lemma changed_per_key (m1 m2 : gmap string Setting) k :
  filter (fun c => ch_settingKey c = k) (changed_labels_or_types m1 m2)
  = match m1 !! k, m2 !! k with
    | Some x, Some y =>
        if decide (setting_label x = setting_label y
                   /\ setting_type x = setting_type y)
        then []
        else [ {| ch_settingKey := k;
                  ch_first := {| lt_label := setting_label x;
                                 lt_type := setting_type x |};
                  ch_second := {| lt_label := setting_label y;
                                  lt_type := setting_type y |} |} ]
    | _, _ => []
    end.
Proof.
  unfold changed_labels_or_types.
  rewrite filter_flat_map_key;
    [|apply NoDup_sorted_set | intros k' e; apply changed_entry_tag].
  destruct (m1 !! k) as [x|] eqn:E1; [destruct (m2 !! k) as [y|] eqn:E2|].
  - rewrite decide_True.
    2:{ apply elem_of_sorted_set, elem_of_intersection.
        split; apply elem_of_dom; eauto. }
    destruct (String.eqb_spec (setting_label x) (setting_label y)),
             (String.eqb_spec (setting_type x) (setting_type y)); simpl;
      first [by rewrite decide_True | rewrite decide_False; [done|tauto]].
  - rewrite decide_False; [done|]. apply not_in_both. by right.
  - rewrite decide_False; [done|]. apply not_in_both. by left.
Qed.

(** X23. For an identifier, [labelOrTypeChanged] has one entry when both
    snapshots have a setting of that identifier and the two differ in
    label or in type, with both label and type pairs; it has none when
    label and type agree or when a snapshot lacks the identifier. *)
Theorem label_or_type_changed_per_key (A B : Schema) (k : string) :
  let entries :=
    filter (fun c => ch_settingKey c = k)
      (labelOrTypeChanged (compare_schemas A B)) in
  match settings_by_id (schema_settings A) !! k,
        settings_by_id (schema_settings B) !! k with
  | Some x, Some y =>
      entries = if decide (setting_label x = setting_label y
                           /\ setting_type x = setting_type y)
                then []
                else [ {| ch_settingKey := k;
                          ch_first := {| lt_label := setting_label x;
                                         lt_type := setting_type x |};
                          ch_second := {| lt_label := setting_label y;
                                          lt_type := setting_type y |} |} ]
  | _, _ => entries = []
  end.
Proof.
  intros entries. unfold entries, compare_schemas.
  cbn [labelOrTypeChanged]. rewrite changed_per_key.
  by destruct (settings_by_id (schema_settings A) !! k),
    (settings_by_id (schema_settings B) !! k).
Qed.

Lemma sorted_set_nil_inv (X : gset string) : sorted_set X = [] -> X = ∅.
Proof.
  unfold sorted_set, sorted. intros E.
  assert (Hp : elements X ≡ₚ []).
  { by rewrite <- (merge_sort_Permutation String.le (elements X)), E. }
  apply Permutation_nil_r in Hp. apply leibniz_equiv.
  by apply elements_empty_inv.
Qed.

Lemma same_when_no_difference (X Y : gset string) :
  Y ∖ X = ∅ -> X ∖ Y = ∅ -> X = Y.
Proof.
  intros H1 H2. apply set_eq. intros k. split; intros Hk.
  - destruct (decide (k ∈ Y)) as [|Hn]; [done|].
    assert (k ∈ X ∖ Y) as H by (by apply elem_of_difference).
    rewrite H2 in H. by apply elem_of_empty in H.
  - destruct (decide (k ∈ X)) as [|Hn]; [done|].
    assert (k ∈ Y ∖ X) as H by (by apply elem_of_difference).
    rewrite H1 in H. by apply elem_of_empty in H.
Qed.

Lemma nonempty_false {A} (l : list A) : nonempty l = false -> l = [].
Proof. by destruct l. Qed.

(** X24. When no drift is detected, the two snapshots have the same
    container keys and the same setting identifiers, the settings of
    each identifier have the same label and type in both, and every
    dropdown of either snapshot has an option. *)
Theorem no_drift_means_same_keys (A B : Schema) :
  has_drift (compare_schemas A B) = false ->
  container_keys (containers A) = container_keys (containers B)
  /\ dom (settings_by_id (schema_settings A))
     = dom (settings_by_id (schema_settings B))
  /\ (forall k x y,
        settings_by_id (schema_settings A) !! k = Some x ->
        settings_by_id (schema_settings B) !! k = Some y ->
        setting_label x = setting_label y /\ setting_type x = setting_type y)
  /\ Forall (fun item => lacks_options item = false) (schema_settings A)
  /\ Forall (fun item => lacks_options item = false) (schema_settings B).
Proof.
  unfold has_drift, compare_schemas. simpl. rewrite !orb_false_iff.
  intros (H1 & H2 & H3 & H4 & H5 & _ & H7 & H8 & _).
  apply nonempty_false, sorted_set_nil_inv in H1, H2, H3, H4.
  apply nonempty_false in H5, H7, H8.
  split; [by apply same_when_no_difference|].
  split; [by apply same_when_no_difference|]. split; [|split].
  - intros k x y Hx Hy. pose proof (changed_per_key (settings_by_id (schema_settings A))
                  (settings_by_id (schema_settings B)) k) as E.
    rewrite H5, Hx, Hy in E. simpl in E.
    by destruct (decide _) as [H|H].
  - by apply dropdown_missing_options_nil.
  - by apply dropdown_missing_options_nil.
Qed.

Section MoreExamples.
Import DemoSchemas.


(** Two snapshots that differ in a current value only. *)
Lemma no_drift_means_same_keys_witness :
  let A := snapshot [legacy "k" "Name" "textbox" (PStr "1") []] in
  let B := snapshot [legacy "k" "Name" "textbox" (PStr "2") []] in
  container_keys (containers A) = container_keys (containers B)
  /\ dom (settings_by_id (schema_settings A))
     = dom (settings_by_id (schema_settings B))
  /\ (forall k x y,
        settings_by_id (schema_settings A) !! k = Some x ->
        settings_by_id (schema_settings B) !! k = Some y ->
        setting_label x = setting_label y /\ setting_type x = setting_type y)
  /\ Forall (fun item => lacks_options item = false) (schema_settings A)
  /\ Forall (fun item => lacks_options item = false) (schema_settings B).
Proof.
  intros A B. apply (no_drift_means_same_keys A B).
  vm_compute. reflexivity.
Defined.

End MoreExamples.

End StabilityMoreProps.
